(** * Korean AI Tutor: the call page, its audio bridge and the subscription gate

    A shallow embedding of [components/CallPage.tsx], [types.ts], [App.tsx]
    and [components/SubscriptionPage.tsx], with the properties of the
    audio bridge stated and proved over it.

    Conventions.
    - A JavaScript number that holds a time (the output clock, a buffer's
      duration, the playback cursor) or an audio sample is the rational
      [Q] it stands for: every finite double is one.  [Math.max] is exact
      on them; the addition of two times is the addition of doubles,
      [add64], which rounds its result to the nearest double.
    - JavaScript strings are sequences of UTF-16 code units, [list N].
    - React state and refs are fields of one record; a handler is a
      computation in a state monad with exceptions, so that [try]/[catch]
      and a handler that throws are both visible.
    - Calls into the browser and the SDK are recorded in a trace.
    - The page runs on one thread.  A handler that awaits a value that is
      ready (the decoded buffer, a settled promise) goes on before any
      other event is handled, so it is one step; a handler that awaits
      what is not ready (the microphone, a pending session promise) is
      split at the [await], and its second half is a step of its own.
    - The session promise lives outside the component: it keeps the
      callbacks registered on it also after the reference to it is
      cleared. *)

From Stdlib Require Import ZArith QArith Qround Qabs Qminmax Lia Lqa String Ascii.
From stdpp Require Import base list functions.

Open Scope Z_scope.

(** ** JavaScript strings *)

Definition jsstring : Type := list N.

Definition js (s : string) : jsstring :=
  map (fun a => N_of_ascii a) (list_ascii_of_string s).

(** A string is truthy when it is not empty. *)
Definition truthy (s : jsstring) : bool :=
  match s with [] => false | _ :: _ => true end.

(** The code units [String.prototype.trim] removes: ECMAScript's WhiteSpace
    and LineTerminator. *)
Definition is_whitespace (c : N) : bool :=
  ((9 <=? c) && (c <=? 13) || (c =? 32) || (c =? 160) || (c =? 5760)
   || (8192 <=? c) && (c <=? 8202) || (c =? 8232) || (c =? 8233)
   || (c =? 8239) || (c =? 8287) || (c =? 12288) || (c =? 65279))%N.

Fixpoint trimStart (s : jsstring) : jsstring :=
  match s with
  | c :: rest => if is_whitespace c then trimStart rest else s
  | [] => []
  end.

Definition trimEnd (s : jsstring) : jsstring := rev (trimStart (rev s)).

Definition trim (s : jsstring) : jsstring := trimEnd (trimStart s).

(** [needle] occurs in [hay]. *)
Fixpoint startsWith (needle hay : jsstring) : bool :=
  match needle, hay with
  | [], _ => true
  | c :: needle', d :: hay' => (c =? d)%N && startsWith needle' hay'
  | _ :: _, [] => false
  end.

Fixpoint includes (needle hay : jsstring) : bool :=
  startsWith needle hay ||
  match hay with
  | [] => false
  | _ :: hay' => includes needle hay'
  end.

(** ** JavaScript numbers *)

(** The integer nearest to [r], a tie going to the even one. *)
Definition roundHalfEven (r : Q) : Z :=
  let f := Qfloor r in
  match (r - inject_Z f ?= 1 # 2)%Q with
  | Lt => f
  | Gt => f + 1
  | Eq => if Z.even f then f else f + 1
  end.

(** For a positive [q], the exponent [k] with [2^k <= q < 2^(k+1)]. *)
Definition ilog2 (q : Q) : Z :=
  let n := Qnum q in
  let d := Zpos (Qden q) in
  let k := Z.log2 n - Z.log2 d in
  if (if 0 <=? k then 2 ^ k * d <=? n else d <=? n * 2 ^ (- k)) then k else k - 1.

(** The double nearest to [q] (IEEE 754 binary64, round to nearest, ties
    to even): 53 significant bits, and steps of [2^-1074] below the normal
    range.  The exponent is not bounded above: a time in seconds stays far
    from [2^1024]. *)
Definition round64 (q : Q) : Q :=
  let q := Qred q in
  if Qnum q =? 0 then 0%Q
  else
    let e := Z.max (ilog2 (Qabs q) - 52) (-1074) in
    let m := roundHalfEven (Qabs q * 2 ^ (- e))%Q in
    let r := (inject_Z m * 2 ^ e)%Q in
    Qred (if 0 <? Qnum q then r else - r)%Q.

(** [x + y] on doubles. *)
Definition add64 (x y : Q) : Q := round64 (x + y).

(** Optional chaining, [o?.f]. *)
Definition chain {A B : Type} (o : option A) (f : A -> option B) : option B :=
  match o with Some a => f a | None => None end.

Notation "o ?. f" := (chain o f) (at level 50, left associativity).

(** ** The PCM codec ([utils/audio]) *)

Module Codec.

(** Modelled from the spec: [utils/audio.ts] (createPcmBlob, decode,
    decodeAudioData) is imported by the call page but is not part of the
    sources at hand.  The sample conversion follows section 4.1:
    [round(clamp(s,-1,1) * 32767)] stored little-endian on 16 bits, and
    the inverse that divides the signed 16-bit value by 32768.  On a
    float32 sample every operation here is exact in JavaScript's doubles
    (a 24-bit significand times a 15-bit constant, a division by a power
    of two), so the rationals compute what the code would. *)
Definition clamp (s lo hi : Q) : Q := Qmax lo (Qmin s hi).

(** Modelled from the spec: [round] is JavaScript's [Math.round], the
    integer nearest to its argument, halves going up. *)
Definition round (x : Q) : Z := Qfloor (x + (1 # 2)).

(** Modelled from the spec: the 16-bit signed integer of one sample. *)
Definition quantize (s : Q) : Z := round (clamp s (-1) 1 * 32767).

(** Modelled from the spec: the two bytes of a 16-bit two's complement
    value, low byte first. *)
Definition le16 (v : Z) : list Z :=
  let u := v mod 65536 in [u mod 256; u / 256].

(** Modelled from the spec: [encode], the raw bytes of a sample buffer. *)
Definition encodePcm (samples : list Q) : list Z :=
  flat_map (fun s => le16 (quantize s)) samples.

(** Modelled from the spec: the signed value of two little-endian bytes. *)
Definition int16_of_le (lo hi : Z) : Z :=
  let u := lo + 256 * hi in if u <? 32768 then u else u - 65536.

(** Modelled from the spec: one decoded sample, [v / 32768]. *)
Definition dequantize (v : Z) : Q := inject_Z v / 32768.

(** Modelled from the spec: [decodeAudioData]'s sample conversion; a
    trailing odd byte is an incomplete sample and is dropped. *)
Fixpoint decodePcm (bytes : list Z) : list Q :=
  match bytes with
  | lo :: hi :: rest => dequantize (int16_of_le lo hi) :: decodePcm rest
  | _ => []
  end.

(** The round-trip property of section 8, item 1, as the spec words it:
    every sample of the buffer is reproduced within [bound]. *)
Definition roundtrip_within (bound : Q) (samples : list Q) : Prop :=
  Forall2 (fun s d => Qabs (s - d) <= bound)%Q
          samples (decodePcm (encodePcm samples)).

Definition in_unit_range (s : Q) : Prop := (-1 <= s /\ s <= 1)%Q.

(** A float32 value just below one: [1 - 307 * 2^-24]. *)
Definition sample_near_one : Q := 16776909 # 16777216.

End Codec.

(** ** [types.ts] *)

Module Types.

Inductive CallStatus := IDLE | CONNECTING | ACTIVE | ERROR | ENDED.

Inductive Speaker := user | ai | system.

Record TranscriptMessage := { speaker : Speaker; text : jsstring }.

End Types.

(** ** The shape of what the page reads from and hands to the SDK *)

Module GenAI.

Record Transcription := { text : option jsstring }.

Record Blob := { data : option jsstring; mimeType : option jsstring }.

Record Part := { inlineData : option Blob }.

Record Content := { parts : option (list Part) }.

(** [turnComplete] and [interrupted] are optional booleans that the page
    only tests for truthiness: absent and [false] are both [false]. *)
Record LiveServerContent := {
  modelTurn : option Content;
  turnComplete : bool;
  interrupted : bool;
  inputTranscription : option Transcription;
  outputTranscription : option Transcription
}.

Record LiveServerMessage := { serverContent : option LiveServerContent }.

End GenAI.

(** ** [components/CallPage.tsx] *)

Module CallPage.
Import Types.

Definition INPUT_SAMPLE_RATE : Z := 16000.
Definition OUTPUT_SAMPLE_RATE : Z := 24000.
Definition SCRIPT_PROCESSOR_BUFFER_SIZE : Z := 4096.

Record AudioBuffer := { duration : Q }.

(** What [utils/audio] gives the page: [decodeAudio b] stands for
    [decodeAudioData(decode(b), ctx, OUTPUT_SAMPLE_RATE, 1)], [None] when
    the call throws. *)
Class AudioUtils := {
  decodeAudio : jsstring -> option AudioBuffer;
  createPcmBlob : list Q -> GenAI.Blob
}.

(** Calls into the browser and the SDK, in the order they are made.
    Objects are named by the number they got when they were created,
    a session by the number of its promise. *)
Inductive Effect :=
| GetUserMedia
| NewAudioContext (ctx : nat) (sampleRate : Z)
| NewGoogleGenAI
| LiveConnect (pid : nat)
| TrackStop (stream : nat)
| Disconnect (node : nat)
| ContextClose (ctx : nat)
| SessionClose (pid : nat)
| SendRealtimeInput (pid : nat) (media : GenAI.Blob)
| CreateMediaStreamSource (node ctx stream : nat)
| CreateScriptProcessor (node ctx : nat) (bufferSize : Z)
| Connect (node : nat) (destination : option nat)
| CreateBufferSource (source ctx : nat) (buffer : AudioBuffer)
| SourceStart (source : nat) (when : Q)
| SourceStop (source : nat)
| ConsoleError.

(** How the promise of [ai.live.connect] settles.  A fulfilled promise
    holds the session; [closeThrows] tells whether its [close()] throws. *)
Inductive Settlement := Fulfilled (closeThrows : bool) | Rejected.

(** What waits on a session promise: the [then] callback of a capture
    buffer, or the rest of [endCall] after its [await]. *)
Inductive Reaction := SendInput (media : GenAI.Blob) | ResumeEndCall.

(** A promise is pending until it has a settlement. *)
Record SessionPromise := { settled : option Settlement; reactions : list Reaction }.

Definition pendingPromise : SessionPromise := {| settled := None; reactions := [] |}.

(** [useState] *)
Record Ui := {
  callStatus : CallStatus;
  transcript : list TranscriptMessage;
  errorMessage : option jsstring
}.

(** [useRef], the resources *)
Record Refs := {
  sessionPromiseRef : option nat;
  streamRef : option nat;
  audioContextRef : option nat;
  outputAudioContextRef : option nat;
  scriptProcessorRef : option nat;
  mediaStreamSourceRef : option nat
}.

(** [useRef], the text of the turn in progress *)
Record Turn := {
  inputTranscriptionRef : jsstring;
  outputTranscriptionRef : jsstring
}.

(** [useRef], the playback scheduler *)
Record Playback := {
  nextStartTimeRef : Q;
  audioSources : list nat
}.

(** What lives outside the component. *)
Record World := {
  promises : nat -> SessionPromise;
  nextPromise : nat;
  nextObj : nat;
  trace : list Effect
}.

Record State := {
  ui : Ui;
  refs : Refs;
  turn : Turn;
  playback : Playback;
  world : World
}.

Definition noRefs : Refs :=
  {| sessionPromiseRef := None; streamRef := None; audioContextRef := None;
     outputAudioContextRef := None; scriptProcessorRef := None;
     mediaStreamSourceRef := None |}.

(** The component as first rendered. *)
Definition initial : State :=
  {| ui := {| callStatus := IDLE; transcript := []; errorMessage := None |};
     refs := noRefs;
     turn := {| inputTranscriptionRef := []; outputTranscriptionRef := [] |};
     playback := {| nextStartTimeRef := 0; audioSources := [] |};
     world := {| promises := fun _ => pendingPromise; nextPromise := 0;
                 nextObj := 0; trace := [] |} |}.

Definition with_ui (f : Ui -> Ui) (s : State) : State :=
  {| ui := f (ui s); refs := refs s; turn := turn s;
     playback := playback s; world := world s |}.
Definition with_refs (f : Refs -> Refs) (s : State) : State :=
  {| ui := ui s; refs := f (refs s); turn := turn s;
     playback := playback s; world := world s |}.
Definition with_turn (f : Turn -> Turn) (s : State) : State :=
  {| ui := ui s; refs := refs s; turn := f (turn s);
     playback := playback s; world := world s |}.
Definition with_playback (f : Playback -> Playback) (s : State) : State :=
  {| ui := ui s; refs := refs s; turn := turn s;
     playback := f (playback s); world := world s |}.
Definition with_world (f : World -> World) (s : State) : State :=
  {| ui := ui s; refs := refs s; turn := turn s;
     playback := playback s; world := f (world s) |}.

(** *** Handlers: state and exceptions *)

Inductive Completion (A : Type) := Normal (a : A) | Throw.
Arguments Normal {A} a.
Arguments Throw {A}.

Definition Handler (A : Type) : Type := State -> Completion A * State.

#[export] Instance handler_ret : MRet Handler := fun A a s => (Normal a, s).

#[export] Instance handler_bind : MBind Handler := fun A B k m s =>
  match m s with
  | (Normal a, s') => k a s'
  | (Throw, s') => (Throw, s')
  end.

Definition throw {A : Type} : Handler A := fun s => (Throw, s).

Definition try_catch (body handler : Handler unit) : Handler unit := fun s =>
  match body s with
  | (Normal a, s') => (Normal a, s')
  | (Throw, s') => handler s'
  end.

Definition gets {A : Type} (f : State -> A) : Handler A :=
  fun s => (Normal (f s), s).

Definition modify (f : State -> State) : Handler unit :=
  fun s => (Normal tt, f s).

Definition exec {A : Type} (h : Handler A) (s : State) : State := snd (h s).

Definition completes {A : Type} (h : Handler A) (s : State) : bool :=
  match fst (h s) with Normal _ => true | Throw => false end.

Definition emit (e : Effect) : Handler unit :=
  modify (with_world (fun w =>
    {| promises := promises w; nextPromise := nextPromise w;
       nextObj := nextObj w; trace := trace w ++ [e] |})).

Definition fresh : Handler nat :=
  n ← gets (fun s => nextObj (world s));
  modify (with_world (fun w =>
    {| promises := promises w; nextPromise := nextPromise w;
       nextObj := S n; trace := trace w |}));;
  mret n.

(** *** State setters *)

Definition setCallStatus (v : CallStatus) : Handler unit :=
  modify (with_ui (fun u =>
    {| callStatus := v; transcript := transcript u; errorMessage := errorMessage u |})).

(** [setTranscript] with an updater function; a constant updater is
    [setTranscript(value)]. *)
Definition setTranscript (f : list TranscriptMessage -> list TranscriptMessage)
  : Handler unit :=
  modify (with_ui (fun u =>
    {| callStatus := callStatus u; transcript := f (transcript u);
       errorMessage := errorMessage u |})).

Definition setErrorMessage (v : option jsstring) : Handler unit :=
  modify (with_ui (fun u =>
    {| callStatus := callStatus u; transcript := transcript u; errorMessage := v |})).

Definition setSessionPromiseRef (v : option nat) : Handler unit :=
  modify (with_refs (fun r =>
    {| sessionPromiseRef := v; streamRef := streamRef r;
       audioContextRef := audioContextRef r;
       outputAudioContextRef := outputAudioContextRef r;
       scriptProcessorRef := scriptProcessorRef r;
       mediaStreamSourceRef := mediaStreamSourceRef r |})).
Definition setStreamRef (v : option nat) : Handler unit :=
  modify (with_refs (fun r =>
    {| sessionPromiseRef := sessionPromiseRef r; streamRef := v;
       audioContextRef := audioContextRef r;
       outputAudioContextRef := outputAudioContextRef r;
       scriptProcessorRef := scriptProcessorRef r;
       mediaStreamSourceRef := mediaStreamSourceRef r |})).
Definition setAudioContextRef (v : option nat) : Handler unit :=
  modify (with_refs (fun r =>
    {| sessionPromiseRef := sessionPromiseRef r; streamRef := streamRef r;
       audioContextRef := v;
       outputAudioContextRef := outputAudioContextRef r;
       scriptProcessorRef := scriptProcessorRef r;
       mediaStreamSourceRef := mediaStreamSourceRef r |})).
Definition setOutputAudioContextRef (v : option nat) : Handler unit :=
  modify (with_refs (fun r =>
    {| sessionPromiseRef := sessionPromiseRef r; streamRef := streamRef r;
       audioContextRef := audioContextRef r;
       outputAudioContextRef := v;
       scriptProcessorRef := scriptProcessorRef r;
       mediaStreamSourceRef := mediaStreamSourceRef r |})).
Definition setScriptProcessorRef (v : option nat) : Handler unit :=
  modify (with_refs (fun r =>
    {| sessionPromiseRef := sessionPromiseRef r; streamRef := streamRef r;
       audioContextRef := audioContextRef r;
       outputAudioContextRef := outputAudioContextRef r;
       scriptProcessorRef := v;
       mediaStreamSourceRef := mediaStreamSourceRef r |})).
Definition setMediaStreamSourceRef (v : option nat) : Handler unit :=
  modify (with_refs (fun r =>
    {| sessionPromiseRef := sessionPromiseRef r; streamRef := streamRef r;
       audioContextRef := audioContextRef r;
       outputAudioContextRef := outputAudioContextRef r;
       scriptProcessorRef := scriptProcessorRef r;
       mediaStreamSourceRef := v |})).

Definition setInputTranscription (f : jsstring -> jsstring) : Handler unit :=
  modify (with_turn (fun t =>
    {| inputTranscriptionRef := f (inputTranscriptionRef t);
       outputTranscriptionRef := outputTranscriptionRef t |})).
Definition setOutputTranscription (f : jsstring -> jsstring) : Handler unit :=
  modify (with_turn (fun t =>
    {| inputTranscriptionRef := inputTranscriptionRef t;
       outputTranscriptionRef := f (outputTranscriptionRef t) |})).

Definition setNextStartTime (v : Q) : Handler unit :=
  modify (with_playback (fun p =>
    {| nextStartTimeRef := v; audioSources := audioSources p |})).
Definition setAudioSources (f : list nat -> list nat) : Handler unit :=
  modify (with_playback (fun p =>
    {| nextStartTimeRef := nextStartTimeRef p; audioSources := f (audioSources p) |})).

Definition setPromises (f : (nat -> SessionPromise) -> nat -> SessionPromise)
  : Handler unit :=
  modify (with_world (fun w =>
    {| promises := f (promises w); nextPromise := nextPromise w;
       nextObj := nextObj w; trace := trace w |})).

(** *** Session promises *)

Definition promiseState (pid : nat) (s : State) : option Settlement :=
  settled (promises (world s) pid).

Definition addReaction (r : Reaction) (p : SessionPromise) : SessionPromise :=
  {| settled := settled p; reactions := reactions p ++ [r] |}.

Definition newPromise : Handler nat :=
  pid ← gets (fun s => nextPromise (world s));
  modify (with_world (fun w =>
    {| promises := <[pid := pendingPromise]> (promises w);
       nextPromise := S pid; nextObj := nextObj w; trace := trace w |}));;
  mret pid.

(** *** cleanup *)

(** [ref.current?.method()] *)
Definition optCall (ref : Refs -> option nat) (call : nat -> Effect) : Handler unit :=
  r ← gets (fun s => ref (refs s));
  match r with
  | Some obj => emit (call obj)
  | None => mret tt
  end.

Definition cleanup : Handler unit :=
  optCall streamRef TrackStop;;
  optCall scriptProcessorRef Disconnect;;
  optCall mediaStreamSourceRef Disconnect;;
  optCall audioContextRef ContextClose;;
  optCall outputAudioContextRef ContextClose;;
  setStreamRef None;;
  setScriptProcessorRef None;;
  setMediaStreamSourceRef None;;
  setAudioContextRef None;;
  setOutputAudioContextRef None;;
  setSessionPromiseRef None.

(** *** endCall *)

(** The rest of [endCall] once its [await] has resumed: awaiting a
    rejected promise throws inside the [try]. *)
Definition endCall_resume (pid : nat) (outcome : Settlement) : Handler unit :=
  try_catch
    (match outcome with
     | Fulfilled closeThrows =>
         emit (SessionClose pid);;
         if closeThrows then throw else mret tt
     | Rejected => throw
     end)
    (emit ConsoleError);;
  cleanup.

(** A callback of a capture buffer's [then], or the continuation of
    [endCall], run on the settled promise.  A [then] callback is not run
    when the promise rejects. *)
Definition runReaction (pid : nat) (outcome : Settlement) (r : Reaction)
  : Handler unit :=
  match r with
  | SendInput media =>
      match outcome with
      | Fulfilled _ => emit (SendRealtimeInput pid media)
      | Rejected => mret tt
      end
  | ResumeEndCall => endCall_resume pid outcome
  end.

(** [promise.then(r)] and [await promise]: run at once on a settled
    promise (nothing else runs before the microtask), kept by a pending
    one. *)
Definition onSettled (pid : nat) (r : Reaction) : Handler unit :=
  st ← gets (promiseState pid);
  match st with
  | None => setPromises (alter (addReaction r) pid)
  | Some outcome => runReaction pid outcome r
  end.

Definition endCall : Handler unit :=
  setCallStatus ENDED;;
  p ← gets (fun s => sessionPromiseRef (refs s));
  match p with
  | Some pid => onSettled pid ResumeEndCall
  | None => cleanup
  end.

(** The session promise settles: every reaction it holds runs, in the
    order of registration, each in a job of its own. *)
Fixpoint runReactions (pid : nat) (outcome : Settlement) (rs : list Reaction)
  : Handler unit :=
  match rs with
  | [] => mret tt
  | r :: rest =>
      try_catch (runReaction pid outcome r) (mret tt);;
      runReactions pid outcome rest
  end.

(** A promise settles once. *)
Definition settle (pid : nat) (outcome : Settlement) : Handler unit :=
  st ← gets (promiseState pid);
  match st with
  | None =>
      rs ← gets (fun s => reactions (promises (world s) pid));
      setPromises <[pid := {| settled := Some outcome; reactions := [] |}]>;;
      runReactions pid outcome rs
  | Some _ => mret tt
  end.

(** *** startCall *)

Inductive MicResult := Granted | Denied.

Definition startingMessage : TranscriptMessage :=
  {| speaker := system;
     text := js "Starting your Korean lesson... Please allow microphone access." |}.

Definition microphoneError : jsstring :=
  js "Could not access microphone. Please check your browser permissions.".

(** Up to the [await] of [getUserMedia]. *)
Definition startCall_begin : Handler unit :=
  setCallStatus CONNECTING;;
  setTranscript (fun _ => [startingMessage]);;
  setErrorMessage None;;
  emit GetUserMedia.

Definition newAudioContext (sampleRate : Z) : Handler nat :=
  ctx ← fresh;
  emit (NewAudioContext ctx sampleRate);;
  mret ctx.

(** From the [await] on.  [mic] is how [getUserMedia] settled, [sdkOk]
    whether [new GoogleGenAI] returned rather than threw. *)
Definition startCall_resume (mic : MicResult) (sdkOk : bool) : Handler unit :=
  try_catch
    (stream ← match mic with Granted => fresh | Denied => throw end;
     setStreamRef (Some stream);;
     ctx ← newAudioContext INPUT_SAMPLE_RATE;
     setAudioContextRef (Some ctx);;
     out ← newAudioContext OUTPUT_SAMPLE_RATE;
     setOutputAudioContextRef (Some out);;
     emit NewGoogleGenAI;;
     (if sdkOk then mret tt else throw);;
     pid ← newPromise;
     emit (LiveConnect pid);;
     setSessionPromiseRef (Some pid))
    (emit ConsoleError;;
     setErrorMessage (Some microphoneError);;
     setCallStatus ERROR;;
     cleanup).

Definition startCall (mic : MicResult) (sdkOk : bool) : Handler unit :=
  startCall_begin;; startCall_resume mic sdkOk.

(** *** The session callbacks *)

Definition connectedMessage : TranscriptMessage :=
  {| speaker := system;
     text := js "Connection successful! You can start speaking now." |}.

(** [audioContextRef.current!]: using a null reference throws. *)
Definition audioContext : Handler nat :=
  r ← gets (fun s => audioContextRef (refs s));
  match r with Some ctx => mret ctx | None => throw end.

(** [stream] is the one the enclosing [startCall] obtained. *)
Definition onopen (stream : nat) : Handler unit :=
  setCallStatus ACTIVE;;
  setTranscript (fun prev => prev ++ [connectedMessage]);;
  ctx ← audioContext;
  source ← fresh;
  emit (CreateMediaStreamSource source ctx stream);;
  setMediaStreamSourceRef (Some source);;
  ctx ← audioContext;
  scriptProcessor ← fresh;
  emit (CreateScriptProcessor scriptProcessor ctx SCRIPT_PROCESSOR_BUFFER_SIZE);;
  setScriptProcessorRef (Some scriptProcessor);;
  emit (Connect source (Some scriptProcessor));;
  _ ← audioContext;
  emit (Connect scriptProcessor None).

(** The updater of the turn-complete branch. *)
Definition flushTranscript (userText aiText : jsstring)
    (prev : list TranscriptMessage) : list TranscriptMessage :=
  let newTranscript := prev in
  let newTranscript :=
    if truthy userText
    then newTranscript ++ [{| speaker := user; text := userText |}]
    else newTranscript in
  let newTranscript :=
    if truthy aiText
    then newTranscript ++ [{| speaker := ai; text := aiText |}]
    else newTranscript in
  newTranscript.

(** [acc += t.text]: an absent text is appended as the word it prints as. *)
Definition appendText (t : GenAI.Transcription) (acc : jsstring) : jsstring :=
  acc ++ default (js "undefined") (GenAI.text t).

Definition accumulate (message : GenAI.LiveServerMessage) : Handler unit :=
  match GenAI.serverContent message ?. GenAI.outputTranscription with
  | Some t => setOutputTranscription (appendText t)
  | None => mret tt
  end;;
  match GenAI.serverContent message ?. GenAI.inputTranscription with
  | Some t => setInputTranscription (appendText t)
  | None => mret tt
  end.

Definition turnCompleted : Handler unit :=
  userText ← gets (fun s => trim (inputTranscriptionRef (turn s)));
  aiText ← gets (fun s => trim (outputTranscriptionRef (turn s)));
  setTranscript (flushTranscript userText aiText);;
  setInputTranscription (fun _ => []);;
  setOutputTranscription (fun _ => []).

(** [message.serverContent?.modelTurn?.parts[0]?.inlineData?.data];
    indexing absent [parts] throws. *)
Definition base64AudioOf (message : GenAI.LiveServerMessage)
  : Handler (option jsstring) :=
  match GenAI.serverContent message ?. GenAI.modelTurn with
  | None => mret None
  | Some content =>
      match GenAI.parts content with
      | None => throw
      | Some ps => mret (head ps ?. GenAI.inlineData ?. GenAI.data)
      end
  end.

(** The playback branch, once the buffer is decoded.  [currentTime] is
    the reading of the output context's clock. *)
Definition schedulePlayback (ctx : nat) (currentTime : Q) (audioBuffer : AudioBuffer)
  : Handler unit :=
  next ← gets (fun s => nextStartTimeRef (playback s));
  setNextStartTime (Qmax next currentTime);;
  source ← fresh;
  emit (CreateBufferSource source ctx audioBuffer);;
  emit (Connect source None);;
  next ← gets (fun s => nextStartTimeRef (playback s));
  emit (SourceStart source next);;
  setNextStartTime (add64 next (duration audioBuffer));;
  setAudioSources (fun set => if decide (source ∈ set) then set else set ++ [source]).

(** The loop of the interrupted branch.  A [Set] is iterated in insertion
    order, and deleting the entry just visited does not disturb the
    iteration: the loop visits the entries present when it starts. *)
Fixpoint stopSources (sources : list nat) : Handler unit :=
  match sources with
  | [] => mret tt
  | source :: rest =>
      emit (SourceStop source);;
      setAudioSources (filter (fun other => other ≠ source));;
      stopSources rest
  end.

Definition interrupt : Handler unit :=
  sources ← gets (fun s => audioSources (playback s));
  stopSources sources;;
  setNextStartTime 0.

(** The [ended] listener of a source. *)
Definition onended (source : nat) : Handler unit :=
  setAudioSources (filter (fun other => other ≠ source)).

Definition onerror (message : jsstring) : Handler unit :=
  emit ConsoleError;;
  setErrorMessage
    (Some (js "An error occurred: " ++ message ++ js ". Please try again."));;
  setCallStatus ERROR;;
  cleanup.

Definition onclose : Handler unit :=
  setCallStatus ENDED;;
  cleanup.

Section WithAudioUtils.
Context {utils : AudioUtils}.

(** [currentTime] is what the output clock reads when the handler
    asks; the handler runs to its end before the next event. *)
Definition onmessage (currentTime : Q) (message : GenAI.LiveServerMessage)
  : Handler unit :=
  accumulate message;;
  (if from_option GenAI.turnComplete false (GenAI.serverContent message)
   then turnCompleted else mret tt);;
  base64Audio ← base64AudioOf message;
  out ← gets (fun s => outputAudioContextRef (refs s));
  match base64Audio, out with
  | Some b, Some ctx =>
      if truthy b then
        audioBuffer ← match decodeAudio b with
                      | Some buffer => mret buffer
                      | None => throw
                      end;
        schedulePlayback ctx currentTime audioBuffer
      else mret tt
  | _, _ => mret tt
  end;;
  (if from_option GenAI.interrupted false (GenAI.serverContent message)
   then interrupt else mret tt).

Definition onaudioprocess (inputData : list Q) : Handler unit :=
  let pcmBlob := createPcmBlob inputData in
  p ← gets (fun s => sessionPromiseRef (refs s));
  match p with
  | Some pid => onSettled pid (SendInput pcmBlob)
  | None => mret tt
  end.

(** *** The page as an event loop *)

Inductive Event :=
| StartCallClicked
| UserMediaSettled (mic : MicResult) (sdkOk : bool)
| EndCallClicked
| SessionOpened (stream : nat)
| MessageReceived (currentTime : Q) (message : GenAI.LiveServerMessage)
| SessionErrored (message : jsstring)
| SessionClosed
| AudioProcess (inputData : list Q)
| SourceEnded (source : nat)
| SessionSettled (pid : nat) (outcome : Settlement).

Definition handle (e : Event) : Handler unit :=
  match e with
  | StartCallClicked => startCall_begin
  | UserMediaSettled mic sdkOk => startCall_resume mic sdkOk
  | EndCallClicked => endCall
  | SessionOpened stream => onopen stream
  | MessageReceived currentTime message => onmessage currentTime message
  | SessionErrored message => onerror message
  | SessionClosed => onclose
  | AudioProcess inputData => onaudioprocess inputData
  | SourceEnded source => onended source
  | SessionSettled pid outcome => settle pid outcome
  end.

Definition step (s : State) (e : Event) : State := exec (handle e) s.

Definition run (events : list Event) (s : State) : State :=
  fold_left step events s.

End WithAudioUtils.

(** *** What the speaker hears: reading the trace *)

(** The times handed to [source.start], in the order of the calls. *)
Fixpoint startTimes (tr : list Effect) : list Q :=
  match tr with
  | [] => []
  | SourceStart _ t :: rest => t :: startTimes rest
  | _ :: rest => startTimes rest
  end.

(** The start times of the fragments scheduled on the way from [s] to [s']. *)
Definition startsSince (s s' : State) : list Q :=
  startTimes (drop (length (trace (world s))) (trace (world s'))).

(** Fragments decoded and scheduled one after the other, each with the
    reading of the output clock at its turn. *)
Fixpoint scheduleAll (ctx : nat) (fragments : list (Q * AudioBuffer)) : Handler unit :=
  match fragments with
  | [] => mret tt
  | (currentTime, audioBuffer) :: rest =>
      schedulePlayback ctx currentTime audioBuffer;;
      scheduleAll ctx rest
  end.






(** No fragment starts before the cursor that the one before it left: its
    start plus its duration, as the code adds them. *)
Fixpoint startsAfterCursor (previousEnd : Q) (starts durations : list Q) : Prop :=
  match starts, durations with
  | t :: starts', d :: durations' =>
      (previousEnd <= t)%Q /\ startsAfterCursor (add64 t d) starts' durations'
  | _, _ => True
  end.


(** *** Messages that carry one thing *)

Definition turnCompleteMessage : GenAI.LiveServerMessage :=
  {| GenAI.serverContent := Some
       {| GenAI.modelTurn := None; GenAI.turnComplete := true;
          GenAI.interrupted := false; GenAI.inputTranscription := None;
          GenAI.outputTranscription := None |} |}.

Definition interruptedMessage : GenAI.LiveServerMessage :=
  {| GenAI.serverContent := Some
       {| GenAI.modelTurn := None; GenAI.turnComplete := false;
          GenAI.interrupted := true; GenAI.inputTranscription := None;
          GenAI.outputTranscription := None |} |}.

Definition audioMessage (base64 : jsstring) : GenAI.LiveServerMessage :=
  {| GenAI.serverContent := Some
       {| GenAI.modelTurn := Some
            {| GenAI.parts := Some
                 [{| GenAI.inlineData := Some
                       {| GenAI.data := Some base64;
                          GenAI.mimeType := Some (js "audio/pcm;rate=24000") |} |}] |};
          GenAI.turnComplete := false;
          GenAI.interrupted := false; GenAI.inputTranscription := None;
          GenAI.outputTranscription := None |} |}.

(** A partial transcription of one speaker. *)
Inductive Partial := UserText (t : jsstring) | AiText (t : jsstring).

Definition partialMessage (p : Partial) : GenAI.LiveServerMessage :=
  match p with
  | UserText t =>
      {| GenAI.serverContent := Some
           {| GenAI.modelTurn := None; GenAI.turnComplete := false;
              GenAI.interrupted := false;
              GenAI.inputTranscription := Some {| GenAI.text := Some t |};
              GenAI.outputTranscription := None |} |}
  | AiText t =>
      {| GenAI.serverContent := Some
           {| GenAI.modelTurn := None; GenAI.turnComplete := false;
              GenAI.interrupted := false;
              GenAI.inputTranscription := None;
              GenAI.outputTranscription := Some {| GenAI.text := Some t |} |} |}
  end.

Fixpoint userTexts (ps : list Partial) : jsstring :=
  match ps with
  | [] => []
  | UserText t :: rest => t ++ userTexts rest
  | AiText _ :: rest => userTexts rest
  end.

Fixpoint aiTexts (ps : list Partial) : jsstring :=
  match ps with
  | [] => []
  | AiText t :: rest => t ++ aiTexts rest
  | UserText _ :: rest => aiTexts rest
  end.

(** Partial texts in any interleaving, then the turn-complete signal. *)
Definition turnEvents (now : Q) (ps : list Partial) : list Event :=
  map (fun p => MessageReceived now (partialMessage p)) ps
  ++ [MessageReceived now turnCompleteMessage].

(** The entry a text gives: none when it is empty. *)
Definition entry (who : Speaker) (t : jsstring) : list TranscriptMessage :=
  if truthy t then [{| speaker := who; text := t |}] else [].

(** What a turn leaves behind, the accumulated texts passing through
    [normalise] on their way to the transcript. *)
Definition turnFlushes {utils : AudioUtils} (normalise : jsstring -> jsstring)
    (now : Q) (ps : list Partial) (s : State) : Prop :=
  let s' := run (turnEvents now ps) s in
  let userText := normalise (inputTranscriptionRef (turn s) ++ userTexts ps) in
  let aiText := normalise (outputTranscriptionRef (turn s) ++ aiTexts ps) in
  transcript (ui s') = transcript (ui s) ++ entry user userText ++ entry ai aiText
  /\ turn s' = {| inputTranscriptionRef := []; outputTranscriptionRef := [] |}.

(** *** Teardown *)

(** The promise [endCall] awaits settles, if it is still pending. *)
Definition settleAwaited (outcome : Settlement) : Handler unit :=
  p ← gets (fun s => sessionPromiseRef (refs s));
  match p with
  | Some pid => settle pid outcome
  | None => mret tt
  end.

Definition isTerminal (status : CallStatus) : bool :=
  match status with
  | ENDED | ERROR => true
  | _ => false
  end.

(** End-call twice in a row, run to its end: neither call throws, the
    references are released, and the status is [expected] of the status
    before. *)
Definition endCallTwice (expected : CallStatus -> CallStatus)
    (outcome : Settlement) (s : State) : Prop :=
  let s1 := exec endCall s in
  let s2 := exec endCall s1 in
  let s3 := exec (settleAwaited outcome) s2 in
  completes endCall s = true
  /\ completes endCall s1 = true
  /\ completes (settleAwaited outcome) s2 = true
  /\ callStatus (ui s3) = expected (callStatus (ui s))
  /\ refs s3 = noRefs.

(** The terminal status that occurred first stays. *)
Definition firstTerminal (before : CallStatus) : CallStatus :=
  if isTerminal before then before else ENDED.

(** [endCall] would wait at its [await]: there is a session promise and it
    is pending. *)
Definition sessionPending (s : State) : bool :=
  match sessionPromiseRef (refs s) with
  | Some pid =>
      match promiseState pid s with
      | None => true
      | Some _ => false
      end
  | None => false
  end.

(** End-call once, run to its end.  The call does not throw and sets the
    status at once; it releases the references at once unless it has to
    wait for the session promise, and then it releases them when the
    promise settles, without a throw; an end-call after that changes
    nothing. *)
Definition endCallOnce (expected : CallStatus -> CallStatus)
    (outcome : Settlement) (s : State) : Prop :=
  let s1 := exec endCall s in
  let s2 := exec (settleAwaited outcome) s1 in
  completes endCall s = true
  /\ callStatus (ui s1) = expected (callStatus (ui s))
  /\ refs s1 = (if sessionPending s then refs s else noRefs)
  /\ completes (settleAwaited outcome) s1 = true
  /\ callStatus (ui s2) = expected (callStatus (ui s))
  /\ refs s2 = noRefs
  /\ completes endCall s2 = true
  /\ exec endCall s2 = s2.

(** An effect of [cleanup]. *)
Definition isRelease (e : Effect) : bool :=
  match e with
  | TrackStop _ | Disconnect _ | ContextClose _ => true
  | _ => false
  end.

(** *** Relations a handler keeps between the state before and after *)

Definition respects {A : Type} (R : State -> State -> Prop) (h : Handler A) : Prop :=
  forall s : State, R s (exec h s).

(** What holds of the state a handler leaves when it returns. *)
Definition ensures {A : Type} (P : State -> Prop) (h : Handler A) : Prop :=
  forall s : State, completes h s = true -> P (exec h s).

Definition transcriptGrows (s s' : State) : Prop :=
  transcript (ui s) `prefix_of` transcript (ui s').

Definition traceGrows (s s' : State) : Prop :=
  trace (world s) `prefix_of` trace (world s').

Definition sameStatus (s s' : State) : Prop :=
  callStatus (ui s) = callStatus (ui s').

(** *** Capture buffers *)

(** The buffer was sent to some session on the way from [s] to [s']. *)
Definition sentSince (media : GenAI.Blob) (s s' : State) : Prop :=
  exists pid : nat,
    SendRealtimeInput pid media ∈ drop (length (trace (world s))) (trace (world s')).

(** The buffer waits on some promise. *)
Definition queued (media : GenAI.Blob) (s : State) : Prop :=
  exists pid : nat, SendInput media ∈ reactions (promises (world s) pid).

Definition sessionEstablished (s : State) : bool :=
  match sessionPromiseRef (refs s) with
  | Some pid =>
      match promiseState pid s with
      | Some (Fulfilled _) => true
      | _ => false
      end
  | None => false
  end.

(** A buffer that is ready while no session is established is neither
    queued nor sent, whatever happens next. *)
Definition bufferDropped {utils : AudioUtils} (inputData : list Q) (s : State) : Prop :=
  sessionEstablished s = false ->
  let s' := step s (AudioProcess inputData) in
  ~ queued (createPcmBlob inputData) s'
  /\ forall later : list Event,
       ~ sentSince (createPcmBlob inputData) s (run later s').

(** *** The transcript over the steps of the page *)

Definition appendOnly {utils : AudioUtils} (e : Event) (s : State) : Prop :=
  transcriptGrows s (step s e).

(** *** Fixed inputs *)

Definition aSecond : AudioBuffer := {| duration := 1 |}.

Definition someBlob : GenAI.Blob :=
  {| GenAI.data := Some (js "AAA="); GenAI.mimeType := Some (js "audio/pcm;rate=16000") |}.

(** Stand-ins for [utils/audio]: every fragment lasts a second and every
    capture buffer encodes to the same blob. *)
Definition fixedUtils : AudioUtils :=
  {| decodeAudio := fun _ => Some aSecond; createPcmBlob := fun _ => someBlob |}.

(** A call that opened and was ended by the user. *)
Definition finishedCall : State :=
  @run fixedUtils
    [StartCallClicked; UserMediaSettled Granted true; SessionOpened 0;
     SessionSettled 0 (Fulfilled false); EndCallClicked; SessionClosed]
    initial.

(** A call whose microphone was refused. *)
Definition refusedCall : State :=
  @run fixedUtils [StartCallClicked; UserMediaSettled Denied true] initial.

(** A call that is connecting: the session promise is pending and the
    open callback has run. *)
Definition openingCall : State :=
  @run fixedUtils
    [StartCallClicked; UserMediaSettled Granted true; SessionOpened 0] initial.

(** A call in progress. *)
Definition activeCall : State :=
  @run fixedUtils [SessionSettled 0 (Fulfilled false)] openingCall.


(** *** What the page shows *)

Inductive Control := StartButton | EndButton.

(** The button under the transcript: the start button when the status is
    idle, ended or error, the end button otherwise. *)
Definition control (status : CallStatus) : Control :=
  match status with
  | IDLE | ENDED | ERROR => StartButton
  | CONNECTING | ACTIVE => EndButton
  end.

(** [{errorMessage && <div>...</div>}]: the banner is there for a message
    that is truthy. *)
Definition banner (s : State) : option jsstring :=
  match errorMessage (ui s) with
  | Some m => if truthy m then Some m else None
  | None => None
  end.

(** The text of the banner after [onerror]. *)
Definition remoteError (message : jsstring) : jsstring :=
  js "An error occurred: " ++ message ++ js ". Please try again.".

(** *** More to read off a state and a trace *)

(** The handles of the active set are distinct and were all created. *)
Definition sourcesFresh (s : State) : Prop :=
  NoDup (audioSources (playback s))
  /\ Forall (fun h => (h < nextObj (world s))%nat) (audioSources (playback s)).

Definition keepsFresh (s s' : State) : Prop := sourcesFresh s -> sourcesFresh s'.

Definition samePlayback (s s' : State) : Prop := playback s = playback s'.

Definition sameTurn (s s' : State) : Prop := turn s = turn s'.

Definition sameText (s s' : State) : Prop := ui s = ui s' /\ turn s = turn s'.

Definition isMessage (e : Event) : bool :=
  match e with MessageReceived _ _ => true | _ => false end.

Definition isSourceEnded (e : Event) : bool :=
  match e with SourceEnded _ => true | _ => false end.

(** The buffers handed to [sendRealtimeInput], with their sessions, in the
    order of the calls. *)
Fixpoint sends (tr : list Effect) : list (nat * GenAI.Blob) :=
  match tr with
  | [] => []
  | SendRealtimeInput pid media :: rest => (pid, media) :: sends rest
  | _ :: rest => sends rest
  end.

Definition sendsSince (s s' : State) : list (nat * GenAI.Blob) :=
  sends (drop (length (trace (world s))) (trace (world s'))).

Definition effectsSince (s s' : State) : list Effect :=
  drop (length (trace (world s))) (trace (world s')).

(** An accumulator after [acc += t.text], when the message has a [t]. *)
Definition accumulated (t : option GenAI.Transcription) (acc : jsstring) : jsstring :=
  match t with
  | Some t => appendText t acc
  | None => acc
  end.

(** A message that carries a fragment and the interrupted flag. *)
Definition interruptingAudioMessage (base64 : jsstring) : GenAI.LiveServerMessage :=
  {| GenAI.serverContent := Some
       {| GenAI.modelTurn := Some
            {| GenAI.parts := Some
                 [{| GenAI.inlineData := Some
                       {| GenAI.data := Some base64;
                          GenAI.mimeType := Some (js "audio/pcm;rate=24000") |} |}] |};
          GenAI.turnComplete := false;
          GenAI.interrupted := true; GenAI.inputTranscription := None;
          GenAI.outputTranscription := None |} |}.

(** Stand-ins for [utils/audio] whose decoder throws on every input. *)
Definition failingUtils : AudioUtils :=
  {| decodeAudio := fun _ => None; createPcmBlob := fun _ => someBlob |}.

End CallPage.

(** ** [components/SubscriptionPage.tsx] and [App.tsx] *)

Module App.

(** The objects of [plans]. *)
Record Plan := {
  name : jsstring;
  price : jsstring;
  features : list jsstring;
  isPopular : bool
}.

(** The state of [App]: the flag, and the call page once it is mounted. *)
Record AppState := { isSubscribed : bool; callPage : option CallPage.State }.

(** A callback of type [() => void]: it is given nothing and acts on the
    state of the application. *)
Definition Callback : Type := AppState -> AppState.

(** The props of a plan card: the four fields of the plan, and [onSelect]. *)
Record SubscriptionPlanProps := { plan : Plan; onSelect : Callback }.

(** What a click on the card's button runs, [onClick={onSelect}]. *)
Definition SubscriptionPlan (props : SubscriptionPlanProps) : Callback :=
  onSelect props.

Definition plans : list Plan :=
  [ {| name := js "Hangeul Starter"; price := js "9";
       features := [js "5 hours of AI call time"; js "Basic conversation topics";
                    js "Standard response speed"; js "Email support"];
       isPopular := false |};
    {| name := js "Seoul Speaker"; price := js "19";
       features := [js "20 hours of AI call time"; js "Expanded conversation topics";
                    js "Faster response speed"; js "Priority email support";
                    js "Access to new voices"];
       isPopular := true |};
    {| name := js "Korean Master"; price := js "49";
       features := [js "Unlimited AI call time"; js "All conversation topics";
                    js "Instant response speed"; js "24/7 dedicated support";
                    js "Beta feature access"];
       isPopular := false |} ].

(** The buttons of the subscription page, one for each plan. *)
Definition SubscriptionPage (onSubscribe : Callback) : list Callback :=
  map (fun plan => SubscriptionPlan {| plan := plan; onSelect := onSubscribe |})
      plans.

Definition initial : AppState := {| isSubscribed := false; callPage := None |}.

Definition handleSubscribe : Callback := fun st =>
  {| isSubscribed := true; callPage := callPage st |}.

(** Rendering [isSubscribed ? <CallPage /> : <SubscriptionPage ... />]
    mounts the call page the first time the flag is set. *)
Definition render (st : AppState) : AppState :=
  if isSubscribed st
  then {| isSubscribed := true;
          callPage := Some (default CallPage.initial (callPage st)) |}
  else st.

Inductive AppEvent :=
| ChoosePlan (i : nat)
| PageEvent (e : CallPage.Event).

Section WithAudioUtils.
Context {utils : CallPage.AudioUtils}.

Definition step (st : AppState) (ev : AppEvent) : AppState :=
  match ev with
  | ChoosePlan i =>
      if isSubscribed st then st
      else match SubscriptionPage handleSubscribe !! i with
           | Some onClick => render (onClick st)
           | None => st
           end
  | PageEvent e =>
      match callPage st with
      | Some page =>
          {| isSubscribed := isSubscribed st;
             callPage := Some (CallPage.step page e) |}
      | None => st
      end
  end.

Definition run (events : list AppEvent) (st : AppState) : AppState :=
  fold_left step events st.

End WithAudioUtils.

(** The call page is mounted exactly when the flag is set. *)
Definition gateInvariant (st : AppState) : Prop :=
  callPage st = None <-> isSubscribed st = false.

End App.

Section CodecProofs.
Import Codec.

Lemma int16_of_le16 (v : Z) :
  -32768 <= v < 32768 ->
  match le16 v with
  | [lo; hi] => int16_of_le lo hi = v
  | _ => False
  end.
Proof.
  intros Hv. unfold le16, int16_of_le. cbv zeta.
  destruct (Z.ltb_spec ((v mod 65536) mod 256 + 256 * ((v mod 65536) / 256)) 32768);
    Z.to_euclidean_division_equations; lia.
Qed.

Lemma round_near (x : Q) :
  (inject_Z (round x) <= x + (1 # 2) /\ x - (1 # 2) < inject_Z (round x))%Q.
Proof.
  unfold round. split.
  - apply Qfloor_le.
  - pose proof (Qlt_floor (x + (1 # 2))) as H.
    rewrite inject_Z_plus in H. change (inject_Z 1) with 1%Q in H. lra.
Qed.

Lemma clamp_unit (s : Q) : in_unit_range s -> (clamp s (-1) 1 == s)%Q.
Proof.
  intros [Hlo Hhi]. unfold clamp.
  rewrite (Q.min_l s 1) by exact Hhi.
  apply Q.max_r. exact Hlo.
Qed.

Lemma quantize_range (s : Q) :
  in_unit_range s -> -32768 <= quantize s < 32768.
Proof.
  intros Hs. pose proof (clamp_unit s Hs) as Hc. destruct Hs as [Hlo Hhi].
  unfold quantize.
  destruct (round_near (clamp s (-1) 1 * 32767)) as [Hup Hdown].
  set (c := clamp s (-1) 1) in *. clearbody c.
  split.
  - assert (H : (inject_Z (-32768) < inject_Z (round (c * 32767)))%Q).
    { change (inject_Z (-32768)) with (-32768)%Q. lra. }
    rewrite <- Zlt_Qlt in H. lia.
  - assert (H : (inject_Z (round (c * 32767)) < inject_Z 32768)%Q).
    { change (inject_Z 32768) with 32768%Q. lra. }
    rewrite <- Zlt_Qlt in H. exact H.
Qed.

Lemma quantize_error (s : Q) :
  in_unit_range s -> (Qabs (s - dequantize (quantize s)) <= 3 # 65536)%Q.
Proof.
  intros Hs. pose proof (clamp_unit s Hs) as Hc. destruct Hs as [Hlo Hhi].
  unfold dequantize, quantize.
  destruct (round_near (clamp s (-1) 1 * 32767)) as [Hup Hdown].
  set (c := clamp s (-1) 1) in *. clearbody c.
  set (r := inject_Z (round (c * 32767))) in *. clearbody r.
  unfold Qdiv. change (/ 32768)%Q with (1 # 32768)%Q.
  apply Qabs_Qle_condition. split; lra.
Qed.

Lemma decode_encode (samples : list Q) :
  Forall in_unit_range samples ->
  decodePcm (encodePcm samples) = map (fun s => dequantize (quantize s)) samples.
Proof.
  induction 1 as [|s rest Hs _ IH]; [reflexivity|].
  cbn [encodePcm flat_map map]. fold (encodePcm rest).
  pose proof (int16_of_le16 (quantize s) (quantize_range s Hs)) as Hle.
  unfold le16 in *. cbn [app decodePcm]. rewrite Hle, IH. reflexivity.
Qed.

(** C3, as amended.  Encoding samples of [-1,1] as
    [round(clamp(s,-1,1) * 32767)] on 16 little-endian bits and decoding
    by dividing by 32768 gives back every sample within 3/65536, that is
    1.5/32768. *)
Theorem codec_roundtrip (samples : list Q) :
  Forall in_unit_range samples -> roundtrip_within (3 # 65536) samples.
Proof.
  intros Hall. unfold roundtrip_within. rewrite (decode_encode samples Hall).
  induction Hall as [|s rest Hs _ IH]; constructor.
  - apply quantize_error. exact Hs.
  - exact IH.
Qed.

End CodecProofs.

Lemma codec_roundtrip_witness :
  Codec.roundtrip_within (3 # 65536) [1; -1; 1 # 3; Codec.sample_near_one]%Q.
Proof.
  apply codec_roundtrip.
  repeat constructor; cbn; discriminate.
Defined.

(** C3, as the spec states it: the bound 1/32767 fails for a sample just
    below one, which the encoder rounds down to 32766 and the decoder
    returns as 32766/32768. *)
Lemma codec_roundtrip_counterexample :
  Codec.in_unit_range Codec.sample_near_one
  /\ ~ Codec.roundtrip_within (1 # 32767) [Codec.sample_near_one].
Proof.
  split.
  - split; cbn; discriminate.
  - intros H. inversion H as [|s d l l' Hbound _]; subst.
    vm_compute in Hbound. apply Hbound. reflexivity.
Qed.

Import Types CallPage.

(** Unfolding a handler down to the state it computes; the states at hand
    are split into their fields first. *)
Ltac split_state s :=
  destruct s as [[? ? ?] [? ? ? ? ? ?] [? ?] [? ?] [? ? ? ?]].

Ltac handler_simpl :=
  cbv beta iota zeta delta
    [exec completes mbind mret handler_bind handler_ret
     gets modify emit fresh throw try_catch
     with_ui with_refs with_turn with_playback with_world
     setCallStatus setTranscript setErrorMessage
     setSessionPromiseRef setStreamRef setAudioContextRef setOutputAudioContextRef
     setScriptProcessorRef setMediaStreamSourceRef
     setInputTranscription setOutputTranscription
     setNextStartTime setAudioSources setPromises
     ui refs turn playback world
     callStatus transcript errorMessage
     sessionPromiseRef streamRef audioContextRef outputAudioContextRef
     scriptProcessorRef mediaStreamSourceRef
     inputTranscriptionRef outputTranscriptionRef
     nextStartTimeRef audioSources
     promises nextPromise nextObj trace
     fst snd].

(** The fields of a state one update away from another. *)
Ltac fields_simpl :=
  cbn [with_ui with_refs with_turn with_playback with_world
       ui refs turn playback world
       callStatus transcript errorMessage
       sessionPromiseRef streamRef audioContextRef outputAudioContextRef
       scriptProcessorRef mediaStreamSourceRef
       inputTranscriptionRef outputTranscriptionRef
       nextStartTimeRef audioSources
       promises nextPromise nextObj trace
       fst snd].

(** ** The playback scheduler *)

Section PlaybackProofs.

Lemma schedulePlayback_exec (ctx : nat) (now : Q) (buffer : AudioBuffer) (s : State) :
  let s' := exec (schedulePlayback ctx now buffer) s in
  let source := nextObj (world s) in
  let start := Qmax (nextStartTimeRef (playback s)) now in
  completes (schedulePlayback ctx now buffer) s = true
  /\ trace (world s') =
       trace (world s) ++ [CreateBufferSource source ctx buffer;
                           Connect source None; SourceStart source start]
  /\ nextStartTimeRef (playback s') = add64 start (duration buffer)
  /\ audioSources (playback s') =
       (if decide (source ∈ audioSources (playback s))
        then audioSources (playback s)
        else audioSources (playback s) ++ [source])
  /\ nextObj (world s') = S source
  /\ ui s' = ui s /\ refs s' = refs s /\ turn s' = turn s
  /\ promises (world s') = promises (world s)
  /\ nextPromise (world s') = nextPromise (world s).
Proof.
  split_state s. unfold schedulePlayback. handler_simpl.
  rewrite <- !app_assoc. repeat split; reflexivity.
Qed.

Lemma exec_seq {A B : Type} (m : Handler A) (k : Handler B) (s : State) :
  completes m s = true -> exec (m;; k) s = exec k (exec m s).
Proof.
  unfold completes, exec, mbind, handler_bind.
  destruct (m s) as [[a|] s']; cbn; [reflexivity | discriminate].
Qed.

Lemma completes_seq {A B : Type} (m : Handler A) (k : Handler B) (s : State) :
  completes m s = true -> completes (m;; k) s = completes k (exec m s).
Proof.
  unfold completes, exec, mbind, handler_bind.
  destruct (m s) as [[a|] s']; cbn; [reflexivity | discriminate].
Qed.




(** The sum of the doubles nearest to 0.1 and 0.2 is 0.30000000000000004,
    above their exact sum; a cursor holds the rounded one. *)
Lemma add64_rounds :
  add64 (round64 (1 # 10)) (round64 (1 # 5)) = (1351079888211149 # 4503599627370496)%Q
  /\ (round64 (1 # 10) + round64 (1 # 5) < add64 (round64 (1 # 10)) (round64 (1 # 5)))%Q
  /\ round64 (add64 (round64 (1 # 10)) (round64 (1 # 5)))
     = add64 (round64 (1 # 10)) (round64 (1 # 5)).
Proof. vm_compute. repeat split. Qed.

Lemma startsAfterCursor_from (p q : Q) (starts durations : list Q) :
  (p == q)%Q -> startsAfterCursor p starts durations ->
  startsAfterCursor q starts durations.
Proof.
  intros Hpq. destruct starts as [|t starts], durations as [|d durations];
    cbn; try tauto.
  intros [Hle Hrest]. split; [rewrite <- Hpq; exact Hle | exact Hrest].
Qed.


Lemma schedulePlayback_start (ctx : nat) (now : Q) (buffer : AudioBuffer) (s : State) :
  let s' := exec (schedulePlayback ctx now buffer) s in
  let cursor := nextStartTimeRef (playback s) in
  exists start : Q,
    startsSince s s' = [start]
    /\ (start == Qmax now cursor)%Q
    /\ nextStartTimeRef (playback s') = add64 start (duration buffer).
Proof.
  destruct (schedulePlayback_exec ctx now buffer s) as (_ & Htrace & Hnext & _).
  cbn zeta. exists (Qmax (nextStartTimeRef (playback s)) now).
  unfold startsSince. rewrite Htrace, drop_app_length. cbn.
  split; [reflexivity | split].
  - apply Q.max_comm.
  - exact Hnext.
Qed.


Lemma stopSources_exec (sources : list nat) :
  forall s : State,
    let s' := exec (stopSources sources) s in
    completes (stopSources sources) s = true
    /\ trace (world s') = trace (world s) ++ map SourceStop sources
    /\ audioSources (playback s') =
         filter (fun h => h ∉ sources) (audioSources (playback s))
    /\ nextStartTimeRef (playback s') = nextStartTimeRef (playback s)
    /\ ui s' = ui s /\ refs s' = refs s /\ turn s' = turn s
    /\ promises (world s') = promises (world s)
    /\ nextPromise (world s') = nextPromise (world s)
    /\ nextObj (world s') = nextObj (world s).
Proof.
  induction sources as [|h rest IH]; intros s; cbn zeta.
  - cbn. rewrite app_nil_r. repeat split.
    induction (audioSources (playback s)) as [|x l IHl]; [reflexivity|].
    rewrite filter_cons_True by apply not_elem_of_nil. f_equal. exact IHl.
  - pose (s1 := exec (emit (SourceStop h);;
                      setAudioSources (filter (fun other => other ≠ h))) s).
    assert (Hstep : stopSources (h :: rest) s = stopSources rest s1) by reflexivity.
    assert (H1 : trace (world s1) = trace (world s) ++ [SourceStop h]
                 /\ audioSources (playback s1) =
                      filter (fun other => other ≠ h) (audioSources (playback s))
                 /\ nextStartTimeRef (playback s1) = nextStartTimeRef (playback s)
                 /\ ui s1 = ui s /\ refs s1 = refs s /\ turn s1 = turn s
                 /\ promises (world s1) = promises (world s)
                 /\ nextPromise (world s1) = nextPromise (world s)
                 /\ nextObj (world s1) = nextObj (world s))
      by (repeat split; reflexivity).
    destruct H1 as (Ht1 & Hs1 & Hn1 & Hu1 & Hr1 & Htu1 & Hp1 & Hq1 & Ho1).
    clearbody s1.
    destruct (IH s1)
      as (Hok & Htrace & Hset & Hnext & Hui & Hrefs & Hturn & Hprom & Hnp & Hobj).
    unfold exec, completes in *. rewrite Hstep.
    repeat split; try congruence.
    + rewrite Htrace, Ht1. cbn. rewrite <- app_assoc. reflexivity.
    + rewrite Hset, Hs1. rewrite list_filter_filter.
      apply list_filter_iff. intros x. rewrite not_elem_of_cons. tauto.
Qed.

Lemma filter_not_in_self (l : list nat) : filter (fun h => h ∉ l) l = [].
Proof.
  assert (H : forall k : list nat, k ⊆ l -> filter (fun h => h ∉ l) k = []).
  { induction k as [|x k IH]; intros Hsub; [reflexivity|].
    rewrite filter_cons_False.
    - apply IH. intros y Hy. apply Hsub. right. exact Hy.
    - intros Hnot. apply Hnot, Hsub. left. }
  apply H. intros x Hx. exact Hx.
Qed.

Lemma interrupt_exec (s : State) :
  let s' := exec interrupt s in
  completes interrupt s = true
  /\ trace (world s') = trace (world s) ++ map SourceStop (audioSources (playback s))
  /\ playback s' = {| nextStartTimeRef := 0; audioSources := [] |}
  /\ ui s' = ui s /\ refs s' = refs s /\ turn s' = turn s
  /\ promises (world s') = promises (world s)
  /\ nextPromise (world s') = nextPromise (world s)
  /\ nextObj (world s') = nextObj (world s).
Proof.
  cbn zeta.
  assert (Hunfold : interrupt s
                    = (stopSources (audioSources (playback s));;
                       setNextStartTime 0) s) by reflexivity.
  destruct (stopSources_exec (audioSources (playback s)) s)
    as (Hok & Htrace & Hset & Hnext & Hui & Hrefs & Hturn & Hprom & Hnp & Hobj).
  rewrite filter_not_in_self in Hset.
  assert (He : exec interrupt s
               = exec (setNextStartTime 0)
                   (exec (stopSources (audioSources (playback s))) s)).
  { unfold exec at 1. rewrite Hunfold. apply (exec_seq _ _ _ Hok). }
  assert (Hc : completes interrupt s = true).
  { unfold completes. rewrite Hunfold.
    exact (completes_seq _ (setNextStartTime 0) _ Hok). }
  rewrite He.
  set (s1 := exec (stopSources (audioSources (playback s))) s) in *.
  clearbody s1. unfold exec, setNextStartTime, modify. fields_simpl.
  rewrite Hset. repeat split; assumption.
Qed.

(** C2.  After the interrupted branch has run, every handle that was in
    the set of active sources has been stopped and removed, so the set is
    empty; the cursor is zero; and the next fragment scheduled starts at
    the larger of the clock and zero. *)
Theorem interrupt_clears (s : State) :
  let s' := exec interrupt s in
  completes interrupt s = true
  /\ drop (length (trace (world s))) (trace (world s'))
     = map SourceStop (audioSources (playback s))
  /\ audioSources (playback s') = []
  /\ nextStartTimeRef (playback s') = 0%Q
  /\ forall (ctx : nat) (now : Q) (buffer : AudioBuffer),
       exists start : Q,
         startsSince s' (exec (schedulePlayback ctx now buffer) s') = [start]
         /\ (start == Qmax now 0)%Q.
Proof.
  cbn zeta.
  destruct (interrupt_exec s) as (Hok & Htrace & Hplay & _).
  split; [exact Hok|]. split; [rewrite Htrace; apply drop_app_length|].
  rewrite Hplay. split; [reflexivity|]. split; [reflexivity|].
  intros ctx now buffer.
  destruct (schedulePlayback_start ctx now buffer (exec interrupt s))
    as (start & Hstart & Heq & _).
  exists start. split; [exact Hstart|].
  rewrite Hplay in Heq. exact Heq.
Qed.

End PlaybackProofs.

(** ** Relations kept by every handler *)

Section HandlerLaws.
Context (R : State -> State -> Prop) `{!Reflexive R} `{!Transitive R}.

Lemma respects_ret {A : Type} (a : A) : respects R (mret a).
Proof. intros s. reflexivity. Qed.

Lemma respects_throw {A : Type} : respects R (@throw A).
Proof. intros s. reflexivity. Qed.

Lemma respects_gets {A : Type} (f : State -> A) : respects R (gets f).
Proof. intros s. reflexivity. Qed.

Lemma respects_modify (f : State -> State) :
  (forall s, R s (f s)) -> respects R (modify f).
Proof. intros H s. apply H. Qed.

Lemma respects_bind {A B : Type} (m : Handler A) (k : A -> Handler B) :
  respects R m -> (forall a, respects R (k a)) -> respects R (m ≫= k).
Proof.
  intros Hm Hk s. specialize (Hm s).
  unfold exec, mbind, handler_bind in *.
  destruct (m s) as [[a|] s1]; cbn in *; [|exact Hm].
  transitivity s1; [exact Hm | apply Hk].
Qed.

Lemma respects_try_catch (body handler : Handler unit) :
  respects R body -> respects R handler -> respects R (try_catch body handler).
Proof.
  intros Hb Hh s. specialize (Hb s).
  unfold exec, try_catch in *.
  destruct (body s) as [[a|] s1]; cbn in *; [exact Hb|].
  transitivity s1; [exact Hb | apply Hh].
Qed.

End HandlerLaws.

(** Taking a handler apart down to its state updates; [leaf] closes the
    goal of one update, [known] the handlers with lemmas of their own. *)
Ltac respects_step leaf known :=
  lazymatch goal with
  | |- respects _ (@mret _ _ _ _) => apply respects_ret; exact _
  | |- respects _ (@throw _) => apply respects_throw; exact _
  | |- respects _ (@gets _ _) => apply respects_gets; exact _
  | |- respects _ (modify _) =>
      apply respects_modify; intros [[? ? ?] [? ? ? ? ? ?] [? ?] [? ?] [? ? ? ?]]; leaf
  | |- respects _ (@mbind _ _ _ _ _ _) =>
      apply respects_bind; [exact _ | | intros ?]
  | |- respects _ (try_catch _ _) =>
      apply respects_try_catch; [exact _ | | ]
  | |- respects _ (match ?x with _ => _ end) => destruct x
  | |- respects _ _ => known
  end.

Ltac respects_tac leaf known :=
  unfold handle, onmessage, onaudioprocess, onclose, onerror, onended,
    interrupt, schedulePlayback, base64AudioOf, turnCompleted, accumulate,
    onopen, audioContext, startCall, startCall_resume, newAudioContext,
    startCall_begin, settleAwaited, settle, endCall, onSettled, runReaction,
    endCall_resume, cleanup, optCall, newPromise,
    setCallStatus, setTranscript, setErrorMessage,
    setSessionPromiseRef, setStreamRef, setAudioContextRef,
    setOutputAudioContextRef, setScriptProcessorRef, setMediaStreamSourceRef,
    setInputTranscription, setOutputTranscription,
    setNextStartTime, setAudioSources, setPromises, emit, fresh;
  repeat respects_step leaf known.

(** ** The transcript *)

Section TranscriptProofs.
Context {utils : AudioUtils}.

#[local] Instance transcriptGrows_refl : Reflexive transcriptGrows.
Proof. intros s. unfold transcriptGrows. reflexivity. Qed.

#[local] Instance transcriptGrows_trans : Transitive transcriptGrows.
Proof. intros s1 s2 s3. unfold transcriptGrows. apply transitivity. Qed.

Lemma flushTranscript_grows (userText aiText : jsstring) (prev : list TranscriptMessage) :
  prev `prefix_of` flushTranscript userText aiText prev.
Proof.
  unfold flushTranscript.
  destruct (truthy userText), (truthy aiText);
    rewrite <- ?app_assoc; try apply prefix_app_r; reflexivity.
Qed.

Ltac transcript_leaf :=
  unfold transcriptGrows; fields_simpl;
  first [ reflexivity
        | apply flushTranscript_grows
        | apply prefix_app_r; reflexivity ].

Lemma stopSources_transcript (sources : list nat) :
  respects transcriptGrows (stopSources sources).
Proof.
  induction sources as [|h rest IH]; cbn [stopSources];
    respects_tac transcript_leaf ltac:(exact IH).
Qed.

Lemma runReactions_transcript (pid : nat) (outcome : Settlement) (rs : list Reaction) :
  respects transcriptGrows (runReactions pid outcome rs).
Proof.
  induction rs as [|r rest IH]; cbn [runReactions];
    respects_tac transcript_leaf ltac:(exact IH).
Qed.

Lemma flushTranscript_entries (userText aiText : jsstring)
    (prev : list TranscriptMessage) :
  flushTranscript userText aiText prev
  = prev ++ entry user userText ++ entry ai aiText.
Proof.
  unfold flushTranscript, entry.
  destruct (truthy userText), (truthy aiText); cbn;
    rewrite <- ?app_assoc, ?app_nil_r; reflexivity.
Qed.

Lemma onmessage_partial (now : Q) (p : Partial) (s : State) :
  let s' := step s (MessageReceived now (partialMessage p)) in
  transcript (ui s') = transcript (ui s)
  /\ turn s' =
       match p with
       | UserText t =>
           {| inputTranscriptionRef := inputTranscriptionRef (turn s) ++ t;
              outputTranscriptionRef := outputTranscriptionRef (turn s) |}
       | AiText t =>
           {| inputTranscriptionRef := inputTranscriptionRef (turn s);
              outputTranscriptionRef := outputTranscriptionRef (turn s) ++ t |}
       end.
Proof. split_state s. destruct p; split; reflexivity. Qed.

Lemma onmessage_turnComplete (now : Q) (s : State) :
  let s' := step s (MessageReceived now turnCompleteMessage) in
  transcript (ui s')
  = flushTranscript (trim (inputTranscriptionRef (turn s)))
      (trim (outputTranscriptionRef (turn s))) (transcript (ui s))
  /\ turn s' = {| inputTranscriptionRef := []; outputTranscriptionRef := [] |}.
Proof. split_state s. split; reflexivity. Qed.

Lemma turn_flushes_trimmed (now : Q) (ps : list Partial) :
  forall s : State, turnFlushes trim now ps s.
Proof.
  unfold turnFlushes, turnEvents, run.
  induction ps as [|p ps IH]; intros s.
  - cbn [map app fold_left userTexts aiTexts]. rewrite !app_nil_r.
    destruct (onmessage_turnComplete now s) as [Ht Hturn].
    split; [|exact Hturn]. rewrite Ht. apply flushTranscript_entries.
  - cbn [map app fold_left].
    destruct (onmessage_partial now p s) as [Ht Hturn].
    destruct (IH (step s (MessageReceived now (partialMessage p)))) as [IHt IHturn].
    split; [|exact IHturn].
    rewrite IHt, Ht, Hturn.
    destruct p; cbn [userTexts aiTexts inputTranscriptionRef outputTranscriptionRef];
      rewrite <- ?app_assoc; reflexivity.
Qed.

(** C4, as amended.  After partial user and AI texts in any interleaving,
    the turn-complete signal appends the accumulated user text with the
    white space around it trimmed, if what is left is not empty, then the
    AI text likewise; a text that is empty or all white space gives no
    entry; both accumulators are empty afterwards. *)
Theorem turn_complete_flush (now : Q) (ps : list Partial) (s : State) :
  turnFlushes trim now ps s.
Proof. apply turn_flushes_trimmed. Qed.

Lemma onmessage_schedules (now : Q) (base64 : jsstring) (buffer : AudioBuffer)
    (ctx : nat) (s : State) :
  truthy base64 = true ->
  decodeAudio base64 = Some buffer ->
  outputAudioContextRef (refs s) = Some ctx ->
  onmessage now (audioMessage base64) s = schedulePlayback ctx now buffer s.
Proof.
  intros Htruthy Hdecode Hctx. split_state s. cbn in Hctx. subst.
  unfold onmessage, audioMessage, accumulate, base64AudioOf, schedulePlayback, chain.
  cbn [GenAI.serverContent GenAI.modelTurn GenAI.parts GenAI.inlineData GenAI.data
       GenAI.turnComplete GenAI.interrupted GenAI.inputTranscription
       GenAI.outputTranscription from_option head].
  handler_simpl. rewrite Htruthy, Hdecode. reflexivity.
Qed.

(** A run of messages that each carry one fragment is a run of the
    scheduler over the decoded buffers. *)
Lemma audio_messages_schedule (ctx : nat) (fragments : list (Q * jsstring * AudioBuffer)) :
  Forall (fun f => truthy (snd (fst f)) = true
                   /\ decodeAudio (snd (fst f)) = Some (snd f)) fragments ->
  forall s : State,
    outputAudioContextRef (refs s) = Some ctx ->
    run (map (fun f => MessageReceived (fst (fst f)) (audioMessage (snd (fst f))))
           fragments) s
    = exec (scheduleAll ctx (map (fun f => (fst (fst f), snd f)) fragments)) s.
Proof.
  induction 1 as [|[[now base64] buffer] rest [Htruthy Hdecode] _ IH];
    intros s Hctx; [reflexivity|].
  cbn [map run fold_left fst snd scheduleAll] in *.
  destruct (schedulePlayback_exec ctx now buffer s)
    as (Hok & _ & _ & _ & _ & _ & Hrefs & _).
  rewrite (exec_seq _ _ _ Hok).
  assert (Hstep : step s (MessageReceived now (audioMessage base64))
                  = exec (schedulePlayback ctx now buffer) s).
  { unfold step, handle, exec.
    rewrite (onmessage_schedules now base64 buffer ctx s Htruthy Hdecode Hctx).
    reflexivity. }
  rewrite Hstep. apply IH. rewrite Hrefs. exact Hctx.
Qed.

Lemma ensures_bind {A B : Type} (P : State -> Prop) (m : Handler A)
    (k : A -> Handler B) :
  (forall a, ensures P (k a)) -> ensures P (m ≫= k).
Proof.
  intros Hk s. unfold ensures, completes, exec, mbind, handler_bind in *.
  destruct (m s) as [[a|] s1]; cbn; [apply Hk | discriminate].
Qed.

(** However the interrupted flag arrives, alone or with text or audio in
    the same message, a handler that returns leaves the playback state
    cleared. *)
Lemma onmessage_interrupted_clears (now : Q) (message : GenAI.LiveServerMessage) :
  from_option GenAI.interrupted false (GenAI.serverContent message) = true ->
  ensures (fun s => playback s = {| nextStartTimeRef := 0; audioSources := [] |})
          (onmessage now message).
Proof.
  intros Hflag. unfold onmessage. rewrite Hflag.
  do 2 (apply ensures_bind; intros ?).
  do 3 (apply ensures_bind; intros ?).
  intros s _. apply interrupt_exec.
Qed.

Lemma onmessage_interrupted (now : Q) (s : State) :
  onmessage now interruptedMessage s = interrupt s.
Proof. split_state s. reflexivity. Qed.

(** C9.  Handling an interruption signal completes, stops the active
    sources and resets the playback state, and leaves everything else as
    it was, the two accumulators included: the turn-complete signal that
    follows flushes the texts accumulated before the interruption. *)
Theorem interruption_frame (now : Q) (s : State) :
  let s' := step s (MessageReceived now interruptedMessage) in
  completes (onmessage now interruptedMessage) s = true
  /\ s' = exec interrupt s
  /\ turn s' = turn s
  /\ ui s' = ui s
  /\ refs s' = refs s
  /\ promises (world s') = promises (world s)
  /\ drop (length (trace (world s))) (trace (world s'))
     = map SourceStop (audioSources (playback s))
  /\ forall (later : Q) (ps : list Partial),
       let s'' := run (turnEvents later ps) s' in
       transcript (ui s'')
       = transcript (ui s)
         ++ entry user (trim (inputTranscriptionRef (turn s) ++ userTexts ps))
         ++ entry ai (trim (outputTranscriptionRef (turn s) ++ aiTexts ps))
       /\ transcript (ui s'') = transcript (ui (run (turnEvents later ps) s)).
Proof.
  cbn zeta. unfold step, handle, exec, completes.
  rewrite onmessage_interrupted.
  destruct (interrupt_exec s)
    as (Hok & Htrace & Hplay & Hui & Hrefs & Hturn & Hprom & _).
  unfold exec, completes in *.
  repeat (split; [first [assumption | reflexivity
                        | rewrite Htrace; apply drop_app_length]|]).
  intros later ps.
  destruct (turn_flushes_trimmed later ps (snd (interrupt s))) as [Hafter _].
  destruct (turn_flushes_trimmed later ps s) as [Hplain _].
  rewrite Hui, Hturn in Hafter. split; [exact Hafter|].
  rewrite Hafter, Hplain. reflexivity.
Qed.

Lemma handle_transcript (e : Event) :
  e <> StartCallClicked -> respects transcriptGrows (handle e).
Proof.
  intros He. destruct e; try congruence;
    respects_tac transcript_leaf
      ltac:(first [apply stopSources_transcript | apply runReactions_transcript]).
Qed.

(** C8, as amended.  Every step of the page other than the start of a
    call keeps the transcript it finds as a prefix of the one it leaves:
    entries are appended, never changed or removed, also when a call
    fails or ends.  Starting a call replaces the transcript by the
    starting message alone. *)
Theorem transcript_append_only (e : Event) (s : State) :
  match e with
  | StartCallClicked => transcript (ui (step s e)) = [startingMessage]
  | _ => appendOnly e s
  end.
Proof.
  destruct e; try (apply handle_transcript; discriminate).
  split_state s. reflexivity.
Qed.

End TranscriptProofs.

(** C4, as the spec states it: an accumulator that holds a single space is
    not empty, and yet the turn-complete signal appends no entry for it. *)
Lemma turn_complete_flush_counterexample :
  ~ @turnFlushes fixedUtils (fun t => t) 0 [UserText (js " ")] activeCall.
Proof.
  intros [H _]. vm_compute in H. discriminate H.
Qed.

(** C8, as the spec states it: starting a new call after one has ended
    removes the entries of the call before. *)
Lemma transcript_append_only_counterexample :
  ~ @appendOnly fixedUtils StartCallClicked finishedCall.
Proof.
  intros [k Hk]. vm_compute in Hk. discriminate Hk.
Qed.

(** ** The life of a call: teardown, capture, failure to start *)

Section LifecycleProofs.

#[local] Instance sameStatus_refl : Reflexive sameStatus.
Proof. intros s. reflexivity. Qed.

#[local] Instance sameStatus_trans : Transitive sameStatus.
Proof. intros s1 s2 s3. unfold sameStatus. congruence. Qed.

#[local] Instance traceGrows_refl : Reflexive traceGrows.
Proof. intros s. unfold traceGrows. reflexivity. Qed.

#[local] Instance traceGrows_trans : Transitive traceGrows.
Proof. intros s1 s2 s3. unfold traceGrows. apply transitivity. Qed.

Ltac status_leaf := unfold sameStatus; fields_simpl; reflexivity.

Ltac trace_leaf :=
  unfold traceGrows; fields_simpl;
  first [reflexivity | apply prefix_app_r; reflexivity].

Lemma cleanup_exec (s : State) :
  let s' := exec cleanup s in
  completes cleanup s = true
  /\ refs s' = noRefs
  /\ ui s' = ui s /\ turn s' = turn s /\ playback s' = playback s
  /\ promises (world s') = promises (world s)
  /\ exists released : list Effect,
       trace (world s') = trace (world s) ++ released
       /\ forallb isRelease released = true.
Proof.
  split_state s. unfold cleanup, optCall.
  repeat match goal with o : option nat |- _ => destruct o end;
    handler_simpl; rewrite <- ?app_assoc;
    (repeat (split; [reflexivity|]));
    eexists; (split; [try apply eq_sym, app_nil_r; reflexivity | reflexivity]).
Qed.

Lemma cleanup_idempotent (s : State) :
  exec cleanup (exec cleanup s) = exec cleanup s.
Proof.
  split_state s. unfold cleanup, optCall.
  repeat match goal with o : option nat |- _ => destruct o end; reflexivity.
Qed.

Lemma try_catch_total (body : Handler unit) (s : State) :
  completes (try_catch body (mret tt)) s = true.
Proof.
  unfold completes, try_catch. destruct (body s) as [[[]|] s1]; reflexivity.
Qed.

Lemma try_catch_exec (body handler : Handler unit) (s : State) :
  completes body s = true -> exec (try_catch body handler) s = exec body s.
Proof.
  unfold completes, exec, try_catch.
  destruct (body s) as [[[]|] s1]; [reflexivity | discriminate].
Qed.

Lemma endCall_resume_exec (pid : nat) (outcome : Settlement) (s : State) :
  let s' := exec (endCall_resume pid outcome) s in
  completes (endCall_resume pid outcome) s = true
  /\ refs s' = noRefs
  /\ callStatus (ui s') = callStatus (ui s).
Proof.
  cbn zeta. unfold endCall_resume.
  set (closing := try_catch _ _).
  assert (Hclosing : completes closing s = true
                     /\ ui (exec closing s) = ui s).
  { subst closing. destruct outcome as [[|]|]; split; reflexivity. }
  destruct Hclosing as [Hok Hui].
  rewrite (exec_seq _ _ _ Hok), (completes_seq _ _ _ Hok).
  destruct (cleanup_exec (exec closing s)) as (Hc & Hrefs & Hui' & _).
  repeat split; [exact Hc | exact Hrefs | congruence].
Qed.

Lemma runReactions_total (pid : nat) (outcome : Settlement) (rs : list Reaction) :
  forall s : State, completes (runReactions pid outcome rs) s = true.
Proof.
  induction rs as [|r rest IH]; intros s; [reflexivity|].
  cbn [runReactions].
  rewrite (completes_seq _ _ _ (try_catch_total _ s)). apply IH.
Qed.

Lemma runReactions_snoc (pid : nat) (outcome : Settlement)
    (rs : list Reaction) (r : Reaction) :
  forall s : State,
    exec (runReactions pid outcome (rs ++ [r])) s
    = exec (try_catch (runReaction pid outcome r) (mret tt))
        (exec (runReactions pid outcome rs) s).
Proof.
  induction rs as [|r0 rest IH]; intros s.
  - cbn [app runReactions].
    rewrite (exec_seq _ _ _ (try_catch_total _ s)). reflexivity.
  - cbn [app runReactions].
    rewrite !(exec_seq _ _ _ (try_catch_total _ s)). apply IH.
Qed.

Lemma runReactions_status (pid : nat) (outcome : Settlement) (rs : list Reaction) :
  respects sameStatus (runReactions pid outcome rs).
Proof.
  induction rs as [|r rest IH]; cbn [runReactions];
    respects_tac status_leaf ltac:(exact IH).
Qed.

Lemma runReactions_trace (pid : nat) (outcome : Settlement) (rs : list Reaction) :
  respects traceGrows (runReactions pid outcome rs).
Proof.
  induction rs as [|r rest IH]; cbn [runReactions];
    respects_tac trace_leaf ltac:(exact IH).
Qed.

Lemma settleAwaited_status (outcome : Settlement) :
  respects sameStatus (settleAwaited outcome).
Proof. respects_tac status_leaf ltac:(apply runReactions_status). Qed.

Lemma endCall_status (s : State) : callStatus (ui (exec endCall s)) = ENDED.
Proof.
  unfold endCall.
  rewrite (exec_seq (setCallStatus ENDED) _ s eq_refl).
  set (rest := mbind _ _).
  assert (Hrest : respects sameStatus rest).
  { subst rest. respects_tac status_leaf ltac:(fail). }
  rewrite <- (Hrest (exec (setCallStatus ENDED) s)). reflexivity.
Qed.

Lemma endCall_unreferenced (s : State) :
  sessionPromiseRef (refs s) = None ->
  completes endCall s = true /\ refs (exec endCall s) = noRefs.
Proof.
  intros Hnone.
  assert (Hrun : endCall s = cleanup (exec (setCallStatus ENDED) s)).
  { split_state s. cbn in Hnone. subst. reflexivity. }
  unfold completes, exec at 1. rewrite Hrun.
  destruct (cleanup_exec (exec (setCallStatus ENDED) s)) as (Hok & Hrefs & _).
  split; [exact Hok | exact Hrefs].
Qed.

Lemma endCall_settled (pid : nat) (outcome : Settlement) (s : State) :
  sessionPromiseRef (refs s) = Some pid ->
  promiseState pid s = Some outcome ->
  completes endCall s = true /\ refs (exec endCall s) = noRefs.
Proof.
  intros Href Hstate.
  assert (Hrun : endCall s
                 = endCall_resume pid outcome (exec (setCallStatus ENDED) s)).
  { split_state s. unfold promiseState in Hstate. cbn in Href, Hstate. subst.
    unfold endCall, onSettled, promiseState. handler_simpl.
    rewrite Hstate. reflexivity. }
  unfold completes, exec at 1. rewrite Hrun.
  destruct (endCall_resume_exec pid outcome (exec (setCallStatus ENDED) s))
    as (Hok & Hrefs & _).
  split; [exact Hok | exact Hrefs].
Qed.

Lemma endCall_pending (pid : nat) (s : State) :
  sessionPromiseRef (refs s) = Some pid ->
  promiseState pid s = None ->
  let s' := exec endCall s in
  completes endCall s = true
  /\ refs s' = refs s
  /\ promiseState pid s' = None
  /\ reactions (promises (world s') pid)
     = reactions (promises (world s) pid) ++ [ResumeEndCall].
Proof.
  intros Href Hstate. split_state s.
  unfold promiseState in *. cbn in Href, Hstate. subst.
  unfold endCall, onSettled, promiseState. handler_simpl.
  rewrite Hstate. cbn. rewrite fn_lookup_alter. cbn.
  repeat split; assumption.
Qed.

Lemma settle_pending (pid : nat) (outcome : Settlement) (s : State) :
  promiseState pid s = None ->
  settle pid outcome s
  = runReactions pid outcome (reactions (promises (world s) pid))
      (exec (setPromises <[pid := {| settled := Some outcome; reactions := [] |}]>) s).
Proof.
  intros Hstate. split_state s. unfold promiseState in Hstate. cbn in Hstate.
  unfold settle, promiseState. handler_simpl. rewrite Hstate. reflexivity.
Qed.

Lemma resume_releases (pid : nat) (outcome : Settlement) (rs : list Reaction)
    (s : State) :
  refs (exec (runReactions pid outcome (rs ++ [ResumeEndCall])) s) = noRefs.
Proof.
  rewrite runReactions_snoc. cbn [runReaction].
  set (s1 := exec (runReactions pid outcome rs) s).
  destruct (endCall_resume_exec pid outcome s1) as (Hok & Hrefs & _).
  rewrite (try_catch_exec _ _ _ Hok). exact Hrefs.
Qed.

Lemma endCall_twice_ended (outcome : Settlement) (s : State) :
  endCallTwice (fun _ => ENDED) outcome s.
Proof.
  unfold endCallTwice. cbn zeta.
  set (s1 := exec endCall s). set (s2 := exec endCall s1).
  assert (Hstatus : callStatus (ui (exec (settleAwaited outcome) s2)) = ENDED).
  { rewrite <- (settleAwaited_status outcome s2). apply endCall_status. }
  assert (Hquiet : forall t : State,
             sessionPromiseRef (refs t) = None ->
             completes (settleAwaited outcome) t = true
             /\ exec (settleAwaited outcome) t = t).
  { intros t Ht. split_state t. cbn in Ht. subst. split; reflexivity. }
  assert (Hreleased : forall t : State,
             refs t = noRefs ->
             completes endCall t = true /\ refs (exec endCall t) = noRefs).
  { intros t Ht. apply endCall_unreferenced. rewrite Ht. reflexivity. }
  assert (Hdone : completes endCall s = true -> refs s1 = noRefs ->
             completes endCall s = true
             /\ completes endCall s1 = true
             /\ completes (settleAwaited outcome) s2 = true
             /\ callStatus (ui (exec (settleAwaited outcome) s2)) = ENDED
             /\ refs (exec (settleAwaited outcome) s2) = noRefs).
  { intros Hok1 Hrefs1.
    destruct (Hreleased s1 Hrefs1) as [Hok2 Hrefs2]. fold s2 in Hrefs2.
    assert (Hnone : sessionPromiseRef (refs s2) = None)
      by (rewrite Hrefs2; reflexivity).
    destruct (Hquiet s2 Hnone) as [Hok3 Hsame].
    repeat split; try assumption. rewrite Hsame. exact Hrefs2. }
  destruct (sessionPromiseRef (refs s)) as [pid|] eqn:Href.
  - destruct (promiseState pid s) as [o|] eqn:Hstate.
    + destruct (endCall_settled pid o s Href Hstate) as [Hok1 Hrefs1].
      apply Hdone; assumption.
    + destruct (endCall_pending pid s Href Hstate)
        as (Hok1 & Hrefs1 & Hstate1 & Hqueue1). fold s1 in Hrefs1, Hstate1, Hqueue1.
      assert (Href1 : sessionPromiseRef (refs s1) = Some pid)
        by (rewrite Hrefs1; exact Href).
      destruct (endCall_pending pid s1 Href1 Hstate1)
        as (Hok2 & Hrefs2 & Hstate2 & Hqueue2). fold s2 in Hrefs2, Hstate2, Hqueue2.
      assert (Href2 : sessionPromiseRef (refs s2) = Some pid)
        by (rewrite Hrefs2; exact Href1).
      assert (Hrun : settleAwaited outcome s2 = settle pid outcome s2).
      { clear -Href2. split_state s2. cbn in Href2. subst. reflexivity. }
      pose proof (settle_pending pid outcome s2 Hstate2) as Hsettle.
      rewrite Hqueue2 in Hsettle.
      repeat split; try assumption.
      * unfold completes. rewrite Hrun, Hsettle. apply runReactions_total.
      * unfold exec at 1. rewrite Hrun, Hsettle. apply resume_releases.
  - destruct (endCall_unreferenced s Href) as [Hok1 Hrefs1].
    apply Hdone; assumption.
Qed.

Lemma endCall_released (t : State) :
  refs t = noRefs -> callStatus (ui t) = ENDED ->
  completes endCall t = true /\ exec endCall t = t.
Proof.
  intros Hrefs Hstatus. split_state t. cbn in Hrefs, Hstatus.
  injection Hrefs as -> -> -> -> -> ->. subst.
  unfold endCall, cleanup, optCall. handler_simpl. split; reflexivity.
Qed.

Lemma settleAwaited_unreferenced (outcome : Settlement) (t : State) :
  sessionPromiseRef (refs t) = None ->
  completes (settleAwaited outcome) t = true /\ exec (settleAwaited outcome) t = t.
Proof. intros Ht. split_state t. cbn in Ht. subst. split; reflexivity. Qed.

Lemma endCall_once_ended (outcome : Settlement) (s : State) :
  endCallOnce (fun _ => ENDED) outcome s.
Proof.
  unfold endCallOnce. cbn zeta.
  set (s1 := exec endCall s).
  assert (Hstatus1 : callStatus (ui s1) = ENDED) by apply endCall_status.
  assert (Hstatus2 : callStatus (ui (exec (settleAwaited outcome) s1)) = ENDED).
  { rewrite <- (settleAwaited_status outcome s1). exact Hstatus1. }
  assert (Hdone : completes endCall s = true -> refs s1 = noRefs ->
             sessionPending s = false ->
             completes endCall s = true
             /\ callStatus (ui s1) = ENDED
             /\ refs s1 = (if sessionPending s then refs s else noRefs)
             /\ completes (settleAwaited outcome) s1 = true
             /\ callStatus (ui (exec (settleAwaited outcome) s1)) = ENDED
             /\ refs (exec (settleAwaited outcome) s1) = noRefs
             /\ completes endCall (exec (settleAwaited outcome) s1) = true
             /\ exec endCall (exec (settleAwaited outcome) s1)
                = exec (settleAwaited outcome) s1).
  { intros Hok1 Hrefs1 Hpending.
    assert (Hnone : sessionPromiseRef (refs s1) = None)
      by (rewrite Hrefs1; reflexivity).
    destruct (settleAwaited_unreferenced outcome s1 Hnone) as [Hok2 Hsame].
    rewrite Hpending, Hsame.
    destruct (endCall_released s1 Hrefs1 Hstatus1) as [Hok3 Hfix].
    repeat split; assumption. }
  destruct (sessionPromiseRef (refs s)) as [pid|] eqn:Href.
  - destruct (promiseState pid s) as [o|] eqn:Hstate.
    + destruct (endCall_settled pid o s Href Hstate) as [Hok1 Hrefs1].
      apply Hdone; [exact Hok1 | exact Hrefs1|].
      unfold sessionPending. rewrite Href, Hstate. reflexivity.
    + destruct (endCall_pending pid s Href Hstate)
        as (Hok1 & Hrefs1 & Hstate1 & Hqueue1).
      fold s1 in Hrefs1, Hstate1, Hqueue1.
      assert (Href1 : sessionPromiseRef (refs s1) = Some pid)
        by (rewrite Hrefs1; exact Href).
      assert (Hrun : settleAwaited outcome s1 = settle pid outcome s1).
      { clear -Href1. split_state s1. cbn in Href1. subst. reflexivity. }
      pose proof (settle_pending pid outcome s1 Hstate1) as Hsettle.
      rewrite Hqueue1 in Hsettle.
      assert (Hok2 : completes (settleAwaited outcome) s1 = true).
      { unfold completes. rewrite Hrun, Hsettle. apply runReactions_total. }
      assert (Hrefs2 : refs (exec (settleAwaited outcome) s1) = noRefs).
      { unfold exec at 1. rewrite Hrun, Hsettle. apply resume_releases. }
      destruct (endCall_released _ Hrefs2 Hstatus2) as [Hok3 Hfix].
      assert (Hpending : sessionPending s = true)
        by (unfold sessionPending; rewrite Href, Hstate; reflexivity).
      rewrite Hpending.
      repeat split; assumption.
  - destruct (endCall_unreferenced s Href) as [Hok1 Hrefs1].
    apply Hdone; [exact Hok1 | exact Hrefs1|].
    unfold sessionPending. rewrite Href. reflexivity.
Qed.

(** C5, as amended.  End-call on any state of the page, whether the call
    failed before a session opened or any of the references is null,
    does not throw and sets the status to ended, also when it was error
    before.  It releases every resource reference at once, unless it has
    to wait for a pending session promise; then it releases them when the
    promise settles, again without a throw.  An end-call after that
    changes nothing, and so end-call twice in a row leaves the same: status
    ended and every reference null.  Teardown itself never throws, leaves
    every reference null, and run a second time changes nothing. *)
Theorem teardown_idempotent (outcome : Settlement) (s : State) :
  endCallOnce (fun _ => ENDED) outcome s
  /\ endCallTwice (fun _ => ENDED) outcome s
  /\ completes cleanup s = true
  /\ refs (exec cleanup s) = noRefs
  /\ exec cleanup (exec cleanup s) = exec cleanup s.
Proof.
  split; [apply endCall_once_ended|].
  split; [apply endCall_twice_ended|].
  split; [apply cleanup_exec|].
  split; [apply cleanup_exec | apply cleanup_idempotent].
Qed.

Lemma audioprocess_unreferenced {utils : AudioUtils} (inputData : list Q) (s : State) :
  sessionPromiseRef (refs s) = None -> step s (AudioProcess inputData) = s.
Proof. intros Href. split_state s. cbn in Href. subst. reflexivity. Qed.

Lemma audioprocess_pending {utils : AudioUtils} (inputData : list Q)
    (pid : nat) (s : State) :
  sessionPromiseRef (refs s) = Some pid ->
  promiseState pid s = None ->
  let s' := step s (AudioProcess inputData) in
  promiseState pid s' = None
  /\ reactions (promises (world s') pid)
     = reactions (promises (world s) pid) ++ [SendInput (createPcmBlob inputData)]
  /\ trace (world s') = trace (world s).
Proof.
  intros Href Hstate. split_state s.
  unfold promiseState in *. cbn in Href, Hstate. subst.
  unfold step, handle, onaudioprocess, onSettled, promiseState. handler_simpl.
  rewrite Hstate. cbn. rewrite fn_lookup_alter. cbn.
  repeat split; assumption.
Qed.

Lemma queued_is_sent (pid : nat) (closeThrows : bool) (media : GenAI.Blob)
    (s : State) :
  promiseState pid s = None ->
  (exists before, reactions (promises (world s) pid) = before ++ [SendInput media]) ->
  SendRealtimeInput pid media
  ∈ drop (length (trace (world s)))
      (trace (world (exec (settle pid (Fulfilled closeThrows)) s))).
Proof.
  intros Hstate [before Hqueue].
  unfold exec. rewrite (settle_pending pid _ s Hstate), Hqueue.
  set (s1 := exec (setPromises _) s).
  assert (Htrace1 : trace (world s1) = trace (world s))
    by (subst s1; split_state s; reflexivity).
  change (snd (runReactions pid (Fulfilled closeThrows)
                 (before ++ [SendInput media]) s1))
    with (exec (runReactions pid (Fulfilled closeThrows)
                  (before ++ [SendInput media])) s1).
  rewrite runReactions_snoc. cbn [runReaction].
  destruct (runReactions_trace pid (Fulfilled closeThrows) before s1) as [k Hk].
  set (s2 := exec (runReactions pid (Fulfilled closeThrows) before) s1) in *.
  assert (Hlast : trace (world (exec (try_catch
                     (emit (SendRealtimeInput pid media)) (mret tt)) s2))
                  = trace (world s2) ++ [SendRealtimeInput pid media])
    by (clearbody s2; split_state s2; reflexivity).
  rewrite Hlast, Hk, Htrace1, <- app_assoc, drop_app_length.
  apply elem_of_app. right. apply list_elem_of_singleton. reflexivity.
Qed.

(** C6, as amended.  A capture buffer that is ready while the session
    reference is null is dropped: the step changes nothing, so the buffer
    is neither queued nor sent later.  A buffer that is ready while the
    session promise is pending is kept by the promise, and it is sent to
    the session when the promise is fulfilled. *)
Theorem capture_buffer_fate {utils : AudioUtils} (inputData : list Q) (s : State) :
  let media := createPcmBlob inputData in
  let s' := step s (AudioProcess inputData) in
  (sessionPromiseRef (refs s) = None -> s' = s)
  /\ forall pid : nat,
       sessionPromiseRef (refs s) = Some pid ->
       promiseState pid s = None ->
       queued media s'
       /\ trace (world s') = trace (world s)
       /\ forall closeThrows : bool,
            sentSince media s' (step s' (SessionSettled pid (Fulfilled closeThrows))).
Proof.
  cbn zeta. split; [apply audioprocess_unreferenced|].
  intros pid Href Hstate.
  destruct (audioprocess_pending inputData pid s Href Hstate)
    as (Hstate' & Hqueue & Htrace).
  split; [|split; [exact Htrace|]].
  - exists pid. rewrite Hqueue. apply elem_of_app. right.
    apply list_elem_of_singleton. reflexivity.
  - intros closeThrows. exists pid.
    apply (queued_is_sent pid closeThrows _ _ Hstate').
    eexists. exact Hqueue.
Qed.

(** C7.  When the microphone is refused to a call started from idle, the
    status goes from idle to connecting to error; the transcript holds the
    starting message alone; the error message is the one about the
    microphone and the browser permissions; the catch block runs to the
    end of teardown, which leaves every reference null; and past the one
    request for the microphone the page calls nothing but the console and
    the releases of teardown: it does not try again. *)
Theorem microphone_refused (sdkOk : bool) (s : State) :
  callStatus (ui s) = IDLE ->
  let s1 := exec startCall_begin s in
  let s2 := exec (startCall_resume Denied sdkOk) s1 in
  [callStatus (ui s); callStatus (ui s1); callStatus (ui s2)]
  = [IDLE; CONNECTING; ERROR]
  /\ transcript (ui s2) = [startingMessage]
  /\ errorMessage (ui s2) = Some microphoneError
  /\ includes (js "microphone") microphoneError = true
  /\ includes (js "permissions") microphoneError = true
  /\ completes (startCall_resume Denied sdkOk) s1 = true
  /\ s2 = exec cleanup
            (exec (emit ConsoleError;;
                   setErrorMessage (Some microphoneError);;
                   setCallStatus ERROR) s1)
  /\ refs s2 = noRefs
  /\ exists released : list Effect,
       drop (length (trace (world s))) (trace (world s2))
       = [GetUserMedia; ConsoleError] ++ released
       /\ forallb isRelease released = true.
Proof.
  intros Hidle. cbn zeta.
  set (s1 := exec startCall_begin s).
  set (caught := exec (emit ConsoleError;;
                       setErrorMessage (Some microphoneError);;
                       setCallStatus ERROR) s1).
  assert (Hexec : exec (startCall_resume Denied sdkOk) s1 = exec cleanup caught)
    by reflexivity.
  assert (Hcompletes : completes (startCall_resume Denied sdkOk) s1
                       = completes cleanup caught) by reflexivity.
  assert (Hcaught : ui caught
                    = {| callStatus := ERROR; transcript := [startingMessage];
                         errorMessage := Some microphoneError |}
                    /\ trace (world caught)
                       = trace (world s) ++ [GetUserMedia; ConsoleError]).
  { subst caught s1. split_state s. split; [reflexivity|].
    unfold startCall_begin. handler_simpl. rewrite <- app_assoc. reflexivity. }
  destruct Hcaught as [Hui Htrace].
  destruct (cleanup_exec caught)
    as (Hok & Hrefs & Hui' & _ & _ & _ & released & Hreleased & Hall).
  rewrite Hexec, Hcompletes, Hui', Hui, Hidle.
  cbn [callStatus transcript errorMessage].
  split; [reflexivity|]. split; [reflexivity|]. split; [reflexivity|].
  split; [reflexivity|]. split; [reflexivity|]. split; [exact Hok|].
  split; [reflexivity|]. split; [exact Hrefs|].
  exists released. split; [|exact Hall].
  rewrite Hreleased, Htrace, <- app_assoc, drop_app_length. reflexivity.
Qed.

End LifecycleProofs.

(** C5, as the spec states it: after a call that failed for want of a
    microphone the status is error, and ending that call sets it to ended. *)
Lemma teardown_idempotent_counterexample :
  callStatus (ui refusedCall) = ERROR
  /\ ~ endCallTwice firstTerminal (Fulfilled false) refusedCall.
Proof.
  split; [reflexivity|].
  intros (_ & _ & _ & Hstatus & _). vm_compute in Hstatus. discriminate Hstatus.
Qed.

(** C6, as the spec states it: while the session promise is pending no
    session is established, and yet a buffer that is ready then is queued
    on the promise. *)
Lemma capture_buffer_fate_counterexample :
  ~ @bufferDropped fixedUtils [] openingCall.
Proof.
  intros H. destruct (H eq_refl) as [Hqueued _].
  apply Hqueued. exists 0%nat. vm_compute. left.
Qed.

Lemma capture_buffer_fate_witness :
  @step fixedUtils initial (AudioProcess []) = initial
  /\ queued someBlob (@step fixedUtils openingCall (AudioProcess []))
  /\ sentSince someBlob (@step fixedUtils openingCall (AudioProcess []))
       (@run fixedUtils [AudioProcess []; SessionSettled 0 (Fulfilled false)]
          openingCall).
Proof.
  split.
  - apply (proj1 (@capture_buffer_fate fixedUtils [] initial)). reflexivity.
  - destruct (proj2 (@capture_buffer_fate fixedUtils [] openingCall) 0%nat
                eq_refl eq_refl) as (Hqueued & _ & Hsent).
    split; [exact Hqueued | exact (Hsent false)].
Defined.

Section AppProofs.
Import App.
Context {utils : AudioUtils}.

Lemma choose_plan (i : nat) (st : AppState) :
  (i < length plans)%nat ->
  SubscriptionPage handleSubscribe !! i = Some handleSubscribe
  /\ step st (ChoosePlan i)
     = if isSubscribed st then st else render (handleSubscribe st).
Proof.
  intros Hi. destruct i as [|[|[|i]]]; cbn in Hi; try lia;
    (split; [reflexivity|]); cbn [step];
    destruct (isSubscribed st); reflexivity.
Qed.

(** C10.  Whichever of the three plans the user chooses, the button runs
    the same callback, [handleSubscribe], which is given nothing that
    names the plan; the state of the application after the choice is the
    same, with the subscription flag set; and so is the state after any
    events that follow. *)
Theorem plan_choice_noninterference (i j : nat) (st : AppState)
    (later : list AppEvent) :
  (i < length plans)%nat ->
  (j < length plans)%nat ->
  SubscriptionPage handleSubscribe !! i = Some handleSubscribe
  /\ SubscriptionPage handleSubscribe !! j = Some handleSubscribe
  /\ step st (ChoosePlan i) = step st (ChoosePlan j)
  /\ isSubscribed (step st (ChoosePlan i)) = true
  /\ run later (step st (ChoosePlan i)) = run later (step st (ChoosePlan j)).
Proof.
  intros Hi Hj.
  destruct (choose_plan i st Hi) as [Hbi Hsi].
  destruct (choose_plan j st Hj) as [Hbj Hsj].
  assert (Hsame : step st (ChoosePlan i) = step st (ChoosePlan j))
    by (rewrite Hsi, Hsj; reflexivity).
  split; [exact Hbi|]. split; [exact Hbj|]. split; [exact Hsame|].
  split; [|rewrite Hsame; reflexivity].
  rewrite Hsi. destruct (isSubscribed st) eqn:Hsub; [exact Hsub | reflexivity].
Qed.

End AppProofs.

Lemma plan_choice_noninterference_witness :
  @App.step fixedUtils App.initial (App.ChoosePlan 0)
  = @App.step fixedUtils App.initial (App.ChoosePlan 2)
  /\ App.isSubscribed (@App.step fixedUtils App.initial (App.ChoosePlan 0)) = true.
Proof.
  destruct (@plan_choice_noninterference fixedUtils 0 2 App.initial []) 
    as (_ & _ & Hsame & Hflag & _).
  - cbn. lia.
  - cbn. lia.
  - split; [exact Hsame | exact Hflag].
Defined.

Lemma microphone_refused_witness :
  [callStatus (ui initial);
   callStatus (ui (exec startCall_begin initial));
   callStatus (ui refusedCall)] = [IDLE; CONNECTING; ERROR]
  /\ transcript (ui refusedCall) = [startingMessage]
  /\ refs refusedCall = noRefs.
Proof.
  destruct (microphone_refused true initial eq_refl)
    as (Hseq & Htranscript & _ & _ & _ & _ & _ & Hrefs & _).
  split; [exact Hseq | split; [exact Htranscript | exact Hrefs]].
Defined.


(** The cursor can stand below the exact end of a fragment: with
    fragments of 0.1, 0.7 and 1 second from a cursor at zero, the sum of
    0.1 and 0.7 rounds down, and the third fragment starts before the
    second start plus the second duration, by less than one unit in the
    last place. *)
Lemma rounded_cursor_below_end :
  let fragments := [(0, {| duration := round64 (1 # 10) |});
                    (0, {| duration := round64 (7 # 10) |}); (0, aSecond)]%Q in
  match startsSince activeCall (exec (scheduleAll 2 fragments) activeCall) with
  | [first; second; third] =>
      (first == 0 /\ second == round64 (1 # 10)
       /\ third == add64 second (round64 (7 # 10))
       /\ third < second + round64 (7 # 10)
       /\ second + round64 (7 # 10) - third < 1 # 4503599627370496)%Q
  | _ => False
  end.
Proof. vm_compute. repeat split. Qed.


(** ** Further properties of the call page *)

Section TerminalPaths.

Lemma startsWith_app (needle rest : jsstring) : startsWith needle (needle ++ rest) = true.
Proof.
  induction needle as [|c needle IH]; [destruct rest; reflexivity|].
  cbn. rewrite N.eqb_refl. exact IH.
Qed.

Lemma includes_app (before needle after : jsstring) :
  includes needle (before ++ needle ++ after) = true.
Proof.
  induction before as [|c before IH].
  - cbn [app]. destruct (needle ++ after) eqn:E; cbn [includes];
      rewrite <- E, startsWith_app; reflexivity.
  - cbn [app includes]. rewrite IH. apply orb_true_r.
Qed.

Lemma onerror_exec (message : jsstring) (s : State) :
  let s' := exec (onerror message) s in
  completes (onerror message) s = true
  /\ ui s' = {| callStatus := ERROR; transcript := transcript (ui s);
                errorMessage := Some (remoteError message) |}
  /\ refs s' = noRefs
  /\ turn s' = turn s
  /\ playback s' = playback s.
Proof.
  cbn zeta.
  set (reported := exec (emit ConsoleError;;
                         setErrorMessage (Some (remoteError message));;
                         setCallStatus ERROR) s).
  assert (Hexec : exec (onerror message) s = exec cleanup reported) by reflexivity.
  assert (Hcompletes : completes (onerror message) s = completes cleanup reported)
    by reflexivity.
  destruct (cleanup_exec reported) as (Hok & Hrefs & Hui & Hturn & Hplay & _).
  rewrite Hexec, Hcompletes, Hui, Hturn, Hplay.
  subst reported. split_state s. repeat split; assumption.
Qed.

Lemma onclose_exec (s : State) :
  let s' := exec onclose s in
  completes onclose s = true
  /\ ui s' = {| callStatus := ENDED; transcript := transcript (ui s);
                errorMessage := errorMessage (ui s) |}
  /\ refs s' = noRefs
  /\ turn s' = turn s
  /\ playback s' = playback s.
Proof.
  cbn zeta.
  assert (Hexec : exec onclose s = exec cleanup (exec (setCallStatus ENDED) s))
    by reflexivity.
  assert (Hcompletes : completes onclose s
                       = completes cleanup (exec (setCallStatus ENDED) s))
    by reflexivity.
  destruct (cleanup_exec (exec (setCallStatus ENDED) s))
    as (Hok & Hrefs & Hui & Hturn & Hplay & _).
  rewrite Hexec, Hcompletes, Hui, Hturn, Hplay.
  split_state s. repeat split; assumption.
Qed.

(** X1.  The error callback of the session never throws.  It leaves the
    status at error, a banner that quotes the message of the remote error,
    every resource reference null, and the transcript, the partial texts
    and the playback state as they were. *)
Theorem remote_error_reported (message : jsstring) (s : State) :
  let s' := exec (onerror message) s in
  completes (onerror message) s = true
  /\ callStatus (ui s') = ERROR
  /\ (exists shown : jsstring,
        banner s' = Some shown /\ includes message shown = true)
  /\ transcript (ui s') = transcript (ui s)
  /\ refs s' = noRefs
  /\ turn s' = turn s
  /\ playback s' = playback s.
Proof.
  cbn zeta.
  destruct (onerror_exec message s) as (Hok & Hui & Hrefs & Hturn & Hplay).
  unfold banner. rewrite Hui. cbn [callStatus transcript errorMessage].
  repeat (split; [first [assumption | reflexivity]|]).
  split; [|repeat split; assumption].
  exists (remoteError message). split; [reflexivity|].
  unfold remoteError. apply includes_app.
Qed.

(** X2.  When the session closes after it reported an error, the close
    callback overwrites the status with ended and leaves the error message
    in place: the page shows the banner of the error under the indicator of
    an ended call, with the start button. *)
Theorem close_after_error (message : jsstring) (s : State) :
  let s' := exec onclose (exec (onerror message) s) in
  callStatus (ui s') = ENDED
  /\ banner s' = Some (remoteError message)
  /\ control (callStatus (ui s')) = StartButton
  /\ transcript (ui s') = transcript (ui s)
  /\ refs s' = noRefs.
Proof.
  cbn zeta.
  destruct (onerror_exec message s) as (_ & Hui & _).
  destruct (onclose_exec (exec (onerror message) s)) as (_ & Hui' & Hrefs & _).
  unfold banner. rewrite Hui', Hui. cbn [callStatus transcript errorMessage].
  repeat split; assumption.
Qed.

(** X3.  What a call acquires, teardown releases.  After a start that got
    the microphone and the open callback of its session, the close callback
    stops the stream, disconnects the processor and the source node and
    closes both audio contexts, each once and nothing else, and every
    reference is null. *)
Theorem call_resources_released (s : State) :
  let stream := nextObj (world s) in
  let opened := exec (onopen stream) (exec (startCall Granted true) s) in
  let closed := exec onclose opened in
  completes (startCall Granted true) s = true
  /\ completes (onopen stream) (exec (startCall Granted true) s) = true
  /\ callStatus (ui opened) = ACTIVE
  /\ effectsSince s opened
     = [GetUserMedia;
        NewAudioContext (S stream) INPUT_SAMPLE_RATE;
        NewAudioContext (S (S stream)) OUTPUT_SAMPLE_RATE;
        NewGoogleGenAI;
        LiveConnect (nextPromise (world s));
        CreateMediaStreamSource (S (S (S stream))) (S stream) stream;
        CreateScriptProcessor (S (S (S (S stream)))) (S stream)
          SCRIPT_PROCESSOR_BUFFER_SIZE;
        Connect (S (S (S stream))) (Some (S (S (S (S stream)))));
        Connect (S (S (S (S stream)))) None]
  /\ effectsSince opened closed
     = [TrackStop stream;
        Disconnect (S (S (S (S stream))));
        Disconnect (S (S (S stream)));
        ContextClose (S stream);
        ContextClose (S (S stream))]
  /\ refs closed = noRefs.
Proof.
  split_state s. unfold effectsSince, startCall, startCall_begin, startCall_resume,
    onopen, onclose, cleanup, optCall, newAudioContext, newPromise, audioContext.
  handler_simpl. rewrite <- !app_assoc. cbn [app].
  rewrite !drop_app_length.
  repeat split; try reflexivity.
  match goal with
  | |- drop (length (?l ++ ?m)) (?l ++ ?all) = ?k =>
      change all with (m ++ k); rewrite (app_assoc l m k), drop_app_length
  end.
  reflexivity.
Qed.

(** X4.  When the SDK constructor throws after the microphone was granted,
    the start ends like a refused microphone: status error and the banner
    about the microphone.  The stream just obtained is stopped and the two
    audio contexts just created are closed, no connection is attempted, and
    every reference is null. *)
Theorem sdk_failure_releases (s : State) :
  refs s = noRefs ->
  let stream := nextObj (world s) in
  let s' := exec (startCall_resume Granted false) s in
  completes (startCall_resume Granted false) s = true
  /\ callStatus (ui s') = ERROR
  /\ banner s' = Some microphoneError
  /\ transcript (ui s') = transcript (ui s)
  /\ effectsSince s s'
     = [NewAudioContext (S stream) INPUT_SAMPLE_RATE;
        NewAudioContext (S (S stream)) OUTPUT_SAMPLE_RATE;
        NewGoogleGenAI; ConsoleError;
        TrackStop stream; ContextClose (S stream); ContextClose (S (S stream))]
  /\ refs s' = noRefs.
Proof.
  intros Hrefs. split_state s. cbn in Hrefs. injection Hrefs as -> -> -> -> -> ->.
  unfold effectsSince, banner, startCall_resume, cleanup, optCall, newAudioContext.
  handler_simpl. rewrite <- !app_assoc. cbn [app]. rewrite drop_app_length.
  repeat split; reflexivity.
Qed.

(** X5.  A session that opens when the input audio context is gone (after a
    teardown) makes the open callback throw at its first use of the
    context: by then the status is active and the success message is in the
    transcript, but no node is created, no reference is set and nothing is
    wired, and the page shows the end button. *)
Theorem stale_open_throws (stream : nat) (s : State) :
  audioContextRef (refs s) = None ->
  let s' := exec (onopen stream) s in
  completes (onopen stream) s = false
  /\ callStatus (ui s') = ACTIVE
  /\ control (callStatus (ui s')) = EndButton
  /\ transcript (ui s') = transcript (ui s) ++ [connectedMessage]
  /\ refs s' = refs s
  /\ world s' = world s.
Proof.
  intros Hctx. split_state s. cbn in Hctx. subst.
  unfold onopen, audioContext. handler_simpl. repeat split; reflexivity.
Qed.

Lemma startCall_resume_failed (mic : MicResult) (sdkOk : bool) (s : State) :
  mic = Denied \/ sdkOk = false ->
  callStatus (ui (exec (startCall_resume mic sdkOk) s)) = ERROR.
Proof.
  intros Hfail. split_state s.
  unfold startCall_resume, cleanup, optCall, newAudioContext, newPromise.
  destruct Hfail as [-> | ->]; [|destruct mic];
    repeat match goal with o : option nat |- _ => destruct o end;
    handler_simpl; reflexivity.
Qed.

Lemma onopen_active (stream : nat) (s : State) :
  callStatus (ui (exec (onopen stream) s)) = ACTIVE.
Proof.
  split_state s. unfold onopen, audioContext.
  repeat match goal with o : option nat |- _ => destruct o end;
    handler_simpl; reflexivity.
Qed.

Lemma startCall_begin_connecting (s : State) :
  callStatus (ui (exec startCall_begin s)) = CONNECTING.
Proof. split_state s. unfold startCall_begin. handler_simpl. reflexivity. Qed.

(** X6.  Every way a call stops brings back the start button: the error
    callback, the close callback, end-call, a refused microphone and a
    failing SDK constructor all leave a status under which the page renders
    the start button.  While a call is connecting (from the click on) and
    once its session is open, the page renders the end button. *)
Theorem retry_offered (message : jsstring) (stream : nat) (sdkOk : bool) (s : State) :
  control (callStatus (ui (exec (onerror message) s))) = StartButton
  /\ control (callStatus (ui (exec onclose s))) = StartButton
  /\ control (callStatus (ui (exec endCall s))) = StartButton
  /\ control (callStatus (ui (exec (startCall_resume Denied sdkOk) s))) = StartButton
  /\ control (callStatus (ui (exec (startCall_resume Granted false) s))) = StartButton
  /\ control (callStatus (ui (exec startCall_begin s))) = EndButton
  /\ control (callStatus (ui (exec (onopen stream) s))) = EndButton.
Proof.
  destruct (onerror_exec message s) as (_ & Herror & _).
  destruct (onclose_exec s) as (_ & Hclose & _).
  rewrite Herror, Hclose, endCall_status.
  rewrite (startCall_resume_failed Denied sdkOk s (or_introl eq_refl)).
  rewrite (startCall_resume_failed Granted false s (or_intror eq_refl)).
  rewrite startCall_begin_connecting, onopen_active.
  cbn [callStatus control]. repeat split; reflexivity.
Qed.

End TerminalPaths.


(** ** The set of active sources *)

(** As [respects_tac], with [fresh] and [schedulePlayback] left folded for
    lemmas of their own: what they add depends on the counter they read. *)
Ltac respects_folded leaf known :=
  unfold handle, onmessage, onaudioprocess, onclose, onerror, onended,
    interrupt, base64AudioOf, turnCompleted, accumulate,
    onopen, audioContext, startCall, startCall_resume, newAudioContext,
    startCall_begin, settleAwaited, settle, endCall, onSettled, runReaction,
    endCall_resume, cleanup, optCall, newPromise,
    setCallStatus, setTranscript, setErrorMessage,
    setSessionPromiseRef, setStreamRef, setAudioContextRef,
    setOutputAudioContextRef, setScriptProcessorRef, setMediaStreamSourceRef,
    setInputTranscription, setOutputTranscription,
    setNextStartTime, setAudioSources, setPromises, emit;
  repeat respects_step leaf known.

Section ActiveSources.
Context {utils : AudioUtils}.

#[local] Instance keepsFresh_refl : Reflexive keepsFresh.
Proof. intros s H. exact H. Qed.

#[local] Instance keepsFresh_trans : Transitive keepsFresh.
Proof. intros s1 s2 s3 H12 H23 H. exact (H23 (H12 H)). Qed.

Lemma sourcesFresh_filter (P : nat -> Prop) `{!forall h, Decision (P h)}
    (l : list nat) (n : nat) :
  NoDup l /\ Forall (fun h => (h < n)%nat) l ->
  NoDup (filter P l) /\ Forall (fun h => (h < n)%nat) (filter P l).
Proof.
  intros [Hnd Hall]. split.
  - apply list.NoDup_filter. exact Hnd.
  - apply list.Forall_forall. intros h Hh. apply list_elem_of_filter in Hh as [_ Hh].
    rewrite list.Forall_forall in Hall. apply Hall. exact Hh.
Qed.

Ltac fresh_leaf :=
  unfold keepsFresh, sourcesFresh; fields_simpl;
  first [ exact (fun H => H)
        | apply sourcesFresh_filter ].

Lemma fresh_keepsFresh : respects keepsFresh fresh.
Proof.
  intros s. split_state s. unfold keepsFresh, sourcesFresh. handler_simpl.
  intros [Hnd Hall]. split; [exact Hnd|].
  eapply list.Forall_impl; [exact Hall|]. cbn. intros h Hh. lia.
Qed.

Lemma schedulePlayback_adds (ctx : nat) (now : Q) (buffer : AudioBuffer) (s : State) :
  sourcesFresh s ->
  let s' := exec (schedulePlayback ctx now buffer) s in
  audioSources (playback s') = audioSources (playback s) ++ [nextObj (world s)]
  /\ sourcesFresh s'.
Proof.
  intros [Hnd Hall]. cbn zeta.
  destruct (schedulePlayback_exec ctx now buffer s)
    as (_ & _ & _ & Hset & Hobj & _).
  assert (Hnew : nextObj (world s) ∉ audioSources (playback s)).
  { intros Hin. rewrite list.Forall_forall in Hall. specialize (Hall _ Hin). lia. }
  rewrite decide_False in Hset by exact Hnew.
  split; [exact Hset|]. unfold sourcesFresh. rewrite Hset, Hobj. split.
  - apply list.NoDup_app. split; [exact Hnd|]. split; [|apply NoDup_singleton].
    intros h Hh Hh'. apply list_elem_of_singleton in Hh'. subst. exact (Hnew Hh).
  - apply list.Forall_app. split.
    + eapply list.Forall_impl; [exact Hall|]. cbn. intros h Hh. lia.
    + apply Forall_singleton. lia.
Qed.

Lemma schedulePlayback_keepsFresh (ctx : nat) (now : Q) (buffer : AudioBuffer) :
  respects keepsFresh (schedulePlayback ctx now buffer).
Proof. intros s H. apply schedulePlayback_adds. exact H. Qed.

Lemma stopSources_keepsFresh (sources : list nat) :
  respects keepsFresh (stopSources sources).
Proof.
  induction sources as [|h rest IH]; cbn [stopSources];
    respects_folded fresh_leaf ltac:(exact IH).
Qed.

Lemma runReactions_keepsFresh (pid : nat) (outcome : Settlement) (rs : list Reaction) :
  respects keepsFresh (runReactions pid outcome rs).
Proof.
  induction rs as [|r rest IH]; cbn [runReactions];
    respects_folded fresh_leaf ltac:(exact IH).
Qed.

Lemma handle_keepsFresh (e : Event) : respects keepsFresh (handle e).
Proof.
  destruct e;
    respects_folded fresh_leaf
      ltac:(first [ apply fresh_keepsFresh
                  | apply schedulePlayback_keepsFresh
                  | apply stopSources_keepsFresh
                  | apply runReactions_keepsFresh ]).
Qed.

Lemma run_keepsFresh (events : list Event) :
  forall s : State, sourcesFresh s -> sourcesFresh (run events s).
Proof.
  induction events as [|e events IH]; intros s Hs; [exact Hs|].
  cbn [run fold_left]. apply IH. apply (handle_keepsFresh e s Hs).
Qed.

(** X7.  In every state the page reaches from its first render, whatever
    the events and their order, the set of active sources holds no handle
    twice and only handles that were created; so a fragment that is
    scheduled next always enters the set as a new member, at the end. *)
Theorem sources_tracked (events : list Event) :
  let s := run events initial in
  sourcesFresh s
  /\ forall (ctx : nat) (now : Q) (buffer : AudioBuffer),
       audioSources (playback (exec (schedulePlayback ctx now buffer) s))
       = audioSources (playback s) ++ [nextObj (world s)].
Proof.
  cbn zeta.
  assert (Hs : sourcesFresh (run events initial)).
  { apply run_keepsFresh. split; [apply NoDup_nil_2 | apply Forall_nil_2]. }
  split; [exact Hs|]. intros ctx now buffer.
  apply schedulePlayback_adds. exact Hs.
Qed.

Lemma filter_drops_last (l : list nat) (h : nat) :
  h ∉ l -> filter (fun other => other ≠ h) (l ++ [h]) = l.
Proof.
  induction l as [|x l IH]; intros Hnew; cbn [app].
  - rewrite filter_cons_False by (intros Hne; exact (Hne eq_refl)). reflexivity.
  - apply not_elem_of_cons in Hnew as [Hx Hl].
    rewrite filter_cons_True by congruence. f_equal. exact (IH Hl).
Qed.

(** X8.  A fragment that plays to its end removes itself: once the ended
    listener of a scheduled source has run, the set of active sources is
    what it was before the fragment was scheduled, the cursor stays where
    the scheduling left it, and an interruption that comes afterwards does
    not stop that source. *)
Theorem ended_source_removed (ctx : nat) (now : Q) (buffer : AudioBuffer) (s : State) :
  sourcesFresh s ->
  let h := nextObj (world s) in
  let scheduled := exec (schedulePlayback ctx now buffer) s in
  let ended := exec (onended h) scheduled in
  audioSources (playback ended) = audioSources (playback s)
  /\ nextStartTimeRef (playback ended) = nextStartTimeRef (playback scheduled)
  /\ effectsSince ended (exec interrupt ended)
     = map SourceStop (audioSources (playback s))
  /\ SourceStop h ∉ effectsSince ended (exec interrupt ended).
Proof.
  intros Hs. cbn zeta.
  destruct (schedulePlayback_adds ctx now buffer s Hs) as [Hset _].
  set (scheduled := exec (schedulePlayback ctx now buffer) s) in *.
  assert (Hnew : nextObj (world s) ∉ audioSources (playback s)).
  { destruct Hs as [_ Hall]. intros Hin.
    rewrite list.Forall_forall in Hall. specialize (Hall _ Hin). lia. }
  assert (Hended : playback (exec (onended (nextObj (world s))) scheduled)
                   = {| nextStartTimeRef := nextStartTimeRef (playback scheduled);
                        audioSources := audioSources (playback s) |}).
  { clearbody scheduled. split_state scheduled. cbn in Hset. subst.
    unfold onended. handler_simpl. rewrite filter_drops_last by exact Hnew.
    reflexivity. }
  destruct (interrupt_exec (exec (onended (nextObj (world s))) scheduled))
    as (_ & Htrace & _).
  unfold effectsSince. rewrite Htrace, drop_app_length, Hended.
  cbn [audioSources nextStartTimeRef].
  repeat split.
  intros Hin. apply list_elem_of_In, in_map_iff in Hin as (h & Heq & Hh).
  injection Heq as ->. apply Hnew, list_elem_of_In. exact Hh.
Qed.

End ActiveSources.

Lemma ended_source_removed_witness :
  let h := nextObj (world activeCall) in
  let scheduled := exec (schedulePlayback 2 0 aSecond) activeCall in
  audioSources (playback (exec (onended h) scheduled)) = []
  /\ SourceStop h
     ∉ effectsSince (exec (onended h) scheduled)
         (exec interrupt (exec (onended h) scheduled)).
Proof.
  cbn zeta.
  destruct (ended_source_removed 2 0 aSecond activeCall) as (Hset & _ & _ & Hstop).
  - split; [apply NoDup_nil_2 | apply Forall_nil_2].
  - split; [exact Hset | exact Hstop].
Defined.

(** ** One message, several signals *)

Section MessageParts.
Context {utils : AudioUtils}.

#[local] Instance sameText_refl : Reflexive sameText.
Proof. intros s. split; reflexivity. Qed.

#[local] Instance sameText_trans : Transitive sameText.
Proof. intros s1 s2 s3 [H1 H2] [H3 H4]. split; congruence. Qed.

Ltac text_leaf := unfold sameText; fields_simpl; split; reflexivity.

Lemma stopSources_text (sources : list nat) :
  respects sameText (stopSources sources).
Proof.
  induction sources as [|h rest IH]; cbn [stopSources];
    respects_tac text_leaf ltac:(exact IH).
Qed.

(** X9.  The text of a message is handled before its audio and whatever
    becomes of it.  For every message, also one whose audio makes the
    handler throw: its partial texts are appended to the accumulators; if
    it carries the turn-complete signal, these texts included are trimmed
    and flushed, the user's first, and the accumulators are emptied; if it
    does not, the transcript is unchanged.  The status and the error
    message are never touched. *)
Theorem message_text (now : Q) (message : GenAI.LiveServerMessage) (s : State) :
  let content := GenAI.serverContent message in
  let userText := accumulated (content ?. GenAI.inputTranscription)
                    (inputTranscriptionRef (turn s)) in
  let aiText := accumulated (content ?. GenAI.outputTranscription)
                  (outputTranscriptionRef (turn s)) in
  let s' := step s (MessageReceived now message) in
  callStatus (ui s') = callStatus (ui s)
  /\ errorMessage (ui s') = errorMessage (ui s)
  /\ if from_option GenAI.turnComplete false content
     then transcript (ui s')
          = transcript (ui s) ++ entry user (trim userText) ++ entry ai (trim aiText)
          /\ turn s' = {| inputTranscriptionRef := []; outputTranscriptionRef := [] |}
     else transcript (ui s') = transcript (ui s)
          /\ turn s' = {| inputTranscriptionRef := userText;
                          outputTranscriptionRef := aiText |}.
Proof.
  cbn zeta. unfold step, handle, onmessage.
  set (flush := if from_option GenAI.turnComplete false (GenAI.serverContent message)
                then turnCompleted else mret tt).
  assert (Hacc : completes (accumulate message) s = true).
  { unfold accumulate.
    destruct (GenAI.serverContent message ?. GenAI.outputTranscription),
             (GenAI.serverContent message ?. GenAI.inputTranscription);
      reflexivity. }
  rewrite (exec_seq _ _ _ Hacc).
  set (s1 := exec (accumulate message) s).
  assert (Hflush : completes flush s1 = true).
  { subst flush.
    destruct (from_option GenAI.turnComplete false (GenAI.serverContent message));
      reflexivity. }
  rewrite (exec_seq _ _ _ Hflush).
  set (s2 := exec flush s1).
  set (rest := mbind _ _).
  assert (Hrest : respects sameText rest).
  { subst rest. respects_tac text_leaf ltac:(apply stopSources_text). }
  destruct (Hrest s2) as [Hui Hturn]. rewrite <- Hui, <- Hturn.
  subst s2 s1 flush. clear Hrest Hui Hturn rest Hacc Hflush.
  split_state s. unfold accumulate, accumulated, turnCompleted.
  destruct (GenAI.serverContent message ?. GenAI.outputTranscription),
           (GenAI.serverContent message ?. GenAI.inputTranscription),
           (from_option GenAI.turnComplete false (GenAI.serverContent message));
    handler_simpl; rewrite ?flushTranscript_entries; repeat split; reflexivity.
Qed.

(** X10.  When the message that signals an interruption carries a fragment
    of its own, the fragment is scheduled first and stopped at once: its
    source is started at the larger of the cursor and the clock, then
    every active source is stopped, the new one last, and the handler
    leaves the set empty and the cursor at zero. *)
Theorem interrupting_fragment_stopped (now : Q) (base64 : jsstring)
    (buffer : AudioBuffer) (ctx : nat) (s : State) :
  truthy base64 = true ->
  decodeAudio base64 = Some buffer ->
  outputAudioContextRef (refs s) = Some ctx ->
  sourcesFresh s ->
  let h := nextObj (world s) in
  let s' := step s (MessageReceived now (interruptingAudioMessage base64)) in
  completes (onmessage now (interruptingAudioMessage base64)) s = true
  /\ effectsSince s s'
     = [CreateBufferSource h ctx buffer; Connect h None;
        SourceStart h (Qmax (nextStartTimeRef (playback s)) now)]
       ++ map SourceStop (audioSources (playback s) ++ [h])
  /\ playback s' = {| nextStartTimeRef := 0; audioSources := [] |}.
Proof.
  intros Htruthy Hdecode Hctx Hfresh. cbn zeta.
  assert (Hrun : onmessage now (interruptingAudioMessage base64) s
                 = (schedulePlayback ctx now buffer;; interrupt) s).
  { clear Hfresh. split_state s. cbn in Hctx. subst.
    unfold onmessage, interruptingAudioMessage, accumulate, base64AudioOf, chain.
    cbn [GenAI.serverContent GenAI.modelTurn GenAI.parts GenAI.inlineData GenAI.data
         GenAI.turnComplete GenAI.interrupted GenAI.inputTranscription
         GenAI.outputTranscription from_option head].
    unfold schedulePlayback, interrupt.
    handler_simpl. rewrite Htruthy, Hdecode. handler_simpl. reflexivity. }
  destruct (schedulePlayback_exec ctx now buffer s) as (Hok & Htrace & _).
  destruct (schedulePlayback_adds ctx now buffer s Hfresh) as [Hset _].
  destruct (interrupt_exec (exec (schedulePlayback ctx now buffer) s))
    as (Hok' & Htrace' & Hplay & _).
  assert (Hexec : step s (MessageReceived now (interruptingAudioMessage base64))
                  = exec (schedulePlayback ctx now buffer;; interrupt) s).
  { unfold step, handle, exec. rewrite Hrun. reflexivity. }
  assert (Hcompletes : completes (onmessage now (interruptingAudioMessage base64)) s
                       = completes (schedulePlayback ctx now buffer;; interrupt) s).
  { unfold completes. rewrite Hrun. reflexivity. }
  rewrite Hexec, Hcompletes. unfold effectsSince.
  rewrite (exec_seq _ _ _ Hok), (completes_seq _ _ _ Hok).
  split; [exact Hok'|]. split; [|exact Hplay].
  rewrite Htrace', Htrace, Hset, <- app_assoc, drop_app_length. reflexivity.
Qed.

(** X11.  Nothing around the decoding of a fragment catches what it throws.
    When the decoder throws on the fragment of a message that also signals
    an interruption, the handler throws before it reaches the interrupted
    branch: no source is stopped, the set of active sources and the cursor
    stay as they were, and so does the rest of the state. *)
Theorem decode_failure_skips_interrupt (now : Q) (base64 : jsstring) (ctx : nat)
    (s : State) :
  truthy base64 = true ->
  decodeAudio base64 = None ->
  outputAudioContextRef (refs s) = Some ctx ->
  completes (onmessage now (interruptingAudioMessage base64)) s = false
  /\ step s (MessageReceived now (interruptingAudioMessage base64)) = s.
Proof.
  intros Htruthy Hdecode Hctx. split_state s. cbn in Hctx. subst.
  unfold step, handle, onmessage, interruptingAudioMessage, accumulate,
    base64AudioOf, chain.
  cbn [GenAI.serverContent GenAI.modelTurn GenAI.parts GenAI.inlineData GenAI.data
       GenAI.turnComplete GenAI.interrupted GenAI.inputTranscription
       GenAI.outputTranscription from_option head].
  handler_simpl. rewrite Htruthy, Hdecode. split; reflexivity.
Qed.

(** X12.  A fragment that arrives when the output context is gone, or whose
    data is the empty string, is skipped without a call to the decoder:
    the handler returns and the state is unchanged, whatever the decoder
    would have done. *)
Theorem fragment_skipped (now : Q) (base64 : jsstring) (s : State) :
  outputAudioContextRef (refs s) = None \/ base64 = [] ->
  completes (onmessage now (audioMessage base64)) s = true
  /\ step s (MessageReceived now (audioMessage base64)) = s.
Proof.
  intros Hskip. split_state s.
  unfold step, handle, onmessage, audioMessage, accumulate, base64AudioOf, chain.
  cbn [GenAI.serverContent GenAI.modelTurn GenAI.parts GenAI.inlineData GenAI.data
       GenAI.turnComplete GenAI.interrupted GenAI.inputTranscription
       GenAI.outputTranscription from_option head].
  destruct Hskip as [Hctx | ->].
  - cbn in Hctx. subst. handler_simpl. split; reflexivity.
  - handler_simpl.
    match goal with o : option nat |- _ => idtac end.
    repeat match goal with o : option nat |- _ => destruct o end;
      split; reflexivity.
Qed.

End MessageParts.

Lemma interrupting_fragment_stopped_witness :
  effectsSince activeCall
    (@step fixedUtils activeCall
       (MessageReceived 0 (interruptingAudioMessage (js "AAA="))))
  = [CreateBufferSource 5 2 aSecond; Connect 5 None; SourceStart 5 (Qmax 0 0);
     SourceStop 5].
Proof.
  destruct (@interrupting_fragment_stopped fixedUtils 0 (js "AAA=") aSecond 2
              activeCall) as (_ & Heffects & _).
  - vm_compute. reflexivity.
  - vm_compute. reflexivity.
  - vm_compute. reflexivity.
  - split; [apply NoDup_nil_2 | apply Forall_nil_2].
  - exact Heffects.
Defined.

Lemma decode_failure_skips_interrupt_witness :
  @step failingUtils activeCall
    (MessageReceived 0 (interruptingAudioMessage (js "AAA="))) = activeCall.
Proof.
  apply (@decode_failure_skips_interrupt failingUtils 0 (js "AAA=") 2 activeCall);
    vm_compute; reflexivity.
Defined.

Lemma fragment_skipped_witness :
  @step failingUtils refusedCall (MessageReceived 0 (audioMessage (js "AAA=")))
  = refusedCall
  /\ @step failingUtils activeCall (MessageReceived 0 (audioMessage [])) = activeCall.
Proof.
  split.
  - apply (@fragment_skipped failingUtils 0 (js "AAA=") refusedCall).
    left. vm_compute. reflexivity.
  - apply (@fragment_skipped failingUtils 0 [] activeCall). right. reflexivity.
Defined.

(** ** Capture buffers in order *)

Section CaptureOrder.
Context {utils : AudioUtils}.

Lemma sends_app (l k : list Effect) : sends (l ++ k) = sends l ++ sends k.
Proof.
  induction l as [|e l IH]; [reflexivity|].
  destruct e; cbn; rewrite ?IH; reflexivity.
Qed.

Lemma sends_of_sends (pid : nat) (blobs : list GenAI.Blob) :
  sends (map (SendRealtimeInput pid) blobs) = map (fun media => (pid, media)) blobs.
Proof. induction blobs as [|b blobs IH]; [reflexivity|]. cbn. rewrite IH. reflexivity. Qed.

Lemma audioprocess_established (inputData : list Q) (pid : nat) (closeThrows : bool)
    (s : State) :
  sessionPromiseRef (refs s) = Some pid ->
  promiseState pid s = Some (Fulfilled closeThrows) ->
  step s (AudioProcess inputData)
  = exec (emit (SendRealtimeInput pid (createPcmBlob inputData))) s.
Proof.
  intros Href Hstate. split_state s. unfold promiseState in Hstate.
  cbn in Href, Hstate. subst.
  unfold step, handle, onaudioprocess, onSettled, promiseState. handler_simpl.
  rewrite Hstate. reflexivity.
Qed.

Lemma capture_established (pid : nat) (closeThrows : bool) (buffers : list (list Q)) :
  forall s : State,
    sessionPromiseRef (refs s) = Some pid ->
    promiseState pid s = Some (Fulfilled closeThrows) ->
    let s' := run (map AudioProcess buffers) s in
    trace (world s')
    = trace (world s) ++ map (SendRealtimeInput pid) (map createPcmBlob buffers)
    /\ ui s' = ui s /\ refs s' = refs s /\ turn s' = turn s
    /\ playback s' = playback s /\ promises (world s') = promises (world s).
Proof.
  induction buffers as [|b buffers IH]; intros s Href Hstate; cbn zeta.
  - cbn. rewrite app_nil_r. repeat split.
  - cbn [map run fold_left].
    rewrite (audioprocess_established b pid closeThrows s Href Hstate).
    set (s1 := exec (emit (SendRealtimeInput pid (createPcmBlob b))) s).
    assert (H1 : trace (world s1)
                 = trace (world s) ++ [SendRealtimeInput pid (createPcmBlob b)]
                 /\ ui s1 = ui s /\ refs s1 = refs s /\ turn s1 = turn s
                 /\ playback s1 = playback s
                 /\ promises (world s1) = promises (world s))
      by (subst s1; split_state s; repeat split; reflexivity).
    destruct H1 as (Ht & Hu & Hr & Htu & Hp & Hpr).
    destruct (IH s1) as (Ht' & Hu' & Hr' & Htu' & Hp' & Hpr').
    + rewrite Hr. exact Href.
    + unfold promiseState in *. rewrite Hpr. exact Hstate.
    + cbn zeta in *. unfold run in *.
      rewrite Ht', Ht, <- app_assoc. repeat split; congruence.
Qed.

(** X13.  With the session established, every capture buffer is encoded
    and sent at once, one call each, in the order of capture, to the
    session of the call; sending changes nothing else on the page. *)
Theorem capture_sent_in_order (pid : nat) (closeThrows : bool)
    (buffers : list (list Q)) (s : State) :
  sessionPromiseRef (refs s) = Some pid ->
  promiseState pid s = Some (Fulfilled closeThrows) ->
  let s' := run (map AudioProcess buffers) s in
  effectsSince s s' = map (SendRealtimeInput pid) (map createPcmBlob buffers)
  /\ sendsSince s s' = map (fun b => (pid, createPcmBlob b)) buffers
  /\ ui s' = ui s /\ refs s' = refs s /\ turn s' = turn s /\ playback s' = playback s.
Proof.
  intros Href Hstate. cbn zeta.
  destruct (capture_established pid closeThrows buffers s Href Hstate)
    as (Ht & Hu & Hr & Htu & Hp & _).
  unfold effectsSince, sendsSince. rewrite Ht, drop_app_length, sends_of_sends.
  repeat split; try assumption. apply map_map.
Qed.

Lemma capture_queued (pid : nat) (buffers : list (list Q)) :
  forall s : State,
    sessionPromiseRef (refs s) = Some pid ->
    promiseState pid s = None ->
    let s' := run (map AudioProcess buffers) s in
    promiseState pid s' = None
    /\ reactions (promises (world s') pid)
       = reactions (promises (world s) pid)
         ++ map SendInput (map createPcmBlob buffers)
    /\ trace (world s') = trace (world s).
Proof.
  induction buffers as [|b buffers IH]; intros s Href Hstate; cbn zeta.
  - cbn. rewrite app_nil_r. repeat split. exact Hstate.
  - cbn [map run fold_left].
    destruct (audioprocess_pending b pid s Href Hstate) as (Hstate1 & Hq1 & Ht1).
    assert (Href1 : sessionPromiseRef (refs (step s (AudioProcess b))) = Some pid).
    { clear -Href Hstate. split_state s. unfold promiseState in Hstate.
      cbn in Href, Hstate. subst.
      unfold step, handle, onaudioprocess, onSettled, promiseState. handler_simpl.
      rewrite Hstate. reflexivity. }
    destruct (IH _ Href1 Hstate1) as (Hstate' & Hq' & Ht').
    cbn zeta in *. unfold run in *.
    rewrite Hq', Hq1, Ht', Ht1, <- app_assoc. repeat split. exact Hstate'.
Qed.

Lemma runReactions_sends (pid : nat) (closeThrows : bool) (blobs : list GenAI.Blob) :
  forall s : State,
    trace (world (exec (runReactions pid (Fulfilled closeThrows)
                          (map SendInput blobs)) s))
    = trace (world s) ++ map (SendRealtimeInput pid) blobs.
Proof.
  induction blobs as [|b blobs IH]; intros s.
  - cbn. rewrite app_nil_r. reflexivity.
  - cbn [map runReactions].
    rewrite (exec_seq _ _ _ (try_catch_total _ s)), IH.
    assert (H1 : trace (world (exec (try_catch
                    (runReaction pid (Fulfilled closeThrows) (SendInput b))
                    (mret tt)) s))
                 = trace (world s) ++ [SendRealtimeInput pid b])
      by (split_state s; reflexivity).
    rewrite H1, <- app_assoc. reflexivity.
Qed.

(** X14.  Buffers that become ready while the session promise is pending
    wait on it in the order of capture: once the promise is fulfilled, the
    buffers that waited before and the new ones are sent in that order, one
    call each, and nothing else is called. *)
Theorem queued_capture_sent_in_order (pid : nat) (closeThrows : bool)
    (earlier : list GenAI.Blob) (buffers : list (list Q)) (s : State) :
  sessionPromiseRef (refs s) = Some pid ->
  promiseState pid s = None ->
  reactions (promises (world s) pid) = map SendInput earlier ->
  let queued := run (map AudioProcess buffers) s in
  let s' := step queued (SessionSettled pid (Fulfilled closeThrows)) in
  effectsSince s queued = []
  /\ effectsSince s s'
     = map (SendRealtimeInput pid) (earlier ++ map createPcmBlob buffers).
Proof.
  intros Href Hstate Hearlier. cbn zeta.
  destruct (capture_queued pid buffers s Href Hstate) as (Hstate' & Hq & Ht).
  set (queued := run (map AudioProcess buffers) s) in *.
  unfold effectsSince. rewrite Ht. split.
  - rewrite <- (app_nil_r (trace (world s))) at 2. apply drop_app_length.
  - unfold step, handle, exec.
    rewrite (settle_pending pid _ queued Hstate'), Hq, Hearlier, <- map_app.
    set (s1 := exec (setPromises _) queued).
    assert (Ht1 : trace (world s1) = trace (world queued))
      by (subst s1; clearbody queued; split_state queued; reflexivity).
    change (snd (runReactions pid (Fulfilled closeThrows)
                   (map SendInput (earlier ++ map createPcmBlob buffers)) s1))
      with (exec (runReactions pid (Fulfilled closeThrows)
                    (map SendInput (earlier ++ map createPcmBlob buffers))) s1).
    rewrite runReactions_sends, Ht1, Ht, <- Ht. rewrite Ht. apply drop_app_length.
Qed.

End CaptureOrder.

Lemma capture_sent_in_order_witness :
  sendsSince activeCall (@run fixedUtils [AudioProcess []; AudioProcess [1%Q]] activeCall)
  = [(0%nat, someBlob); (0%nat, someBlob)].
Proof.
  destruct (@capture_sent_in_order fixedUtils 0 false [[]; [1%Q]] activeCall)
    as (_ & Hsends & _).
  - vm_compute. reflexivity.
  - vm_compute. reflexivity.
  - exact Hsends.
Defined.

Lemma queued_capture_sent_in_order_witness :
  effectsSince openingCall
    (@step fixedUtils
       (@run fixedUtils (map AudioProcess [[]; [1%Q]]) openingCall)
       (SessionSettled 0 (Fulfilled false)))
  = map (SendRealtimeInput 0) ([] ++ map (@createPcmBlob fixedUtils) [[]; [1%Q]]).
Proof.
  apply (@queued_capture_sent_in_order fixedUtils 0 false [] [[]; [1%Q]] openingCall).
  - vm_compute. reflexivity.
  - vm_compute. reflexivity.
  - vm_compute. reflexivity.
Defined.

(** ** What a teardown leaves behind *)

Section Leftovers.
Context {utils : AudioUtils}.

#[local] Instance sameTurn_refl : Reflexive sameTurn.
Proof. intros s. reflexivity. Qed.

#[local] Instance sameTurn_trans : Transitive sameTurn.
Proof. intros s1 s2 s3. unfold sameTurn. congruence. Qed.

#[local] Instance samePlayback_refl : Reflexive samePlayback.
Proof. intros s. reflexivity. Qed.

#[local] Instance samePlayback_trans : Transitive samePlayback.
Proof. intros s1 s2 s3. unfold samePlayback. congruence. Qed.

Ltac turn_leaf := unfold sameTurn; fields_simpl; reflexivity.

Ltac playback_leaf := unfold samePlayback; fields_simpl; reflexivity.

Lemma runReactions_turn (pid : nat) (outcome : Settlement) (rs : list Reaction) :
  respects sameTurn (runReactions pid outcome rs).
Proof.
  induction rs as [|r rest IH]; cbn [runReactions];
    respects_tac turn_leaf ltac:(exact IH).
Qed.

Lemma runReactions_playback (pid : nat) (outcome : Settlement) (rs : list Reaction) :
  respects samePlayback (runReactions pid outcome rs).
Proof.
  induction rs as [|r rest IH]; cbn [runReactions];
    respects_tac playback_leaf ltac:(exact IH).
Qed.

Lemma handle_turn (e : Event) : isMessage e = false -> respects sameTurn (handle e).
Proof.
  intros He. destruct e; try discriminate He;
    respects_tac turn_leaf ltac:(apply runReactions_turn).
Qed.

Lemma handle_playback (e : Event) :
  isMessage e = false -> isSourceEnded e = false ->
  respects samePlayback (handle e).
Proof.
  intros He He'. destruct e; try discriminate He; try discriminate He';
    respects_tac playback_leaf ltac:(apply runReactions_playback).
Qed.

Lemma run_turn (events : list Event) :
  Forall (fun e => isMessage e = false) events ->
  forall s : State, turn (run events s) = turn s.
Proof.
  induction 1 as [|e events He _ IH]; intros s; [reflexivity|].
  cbn [run fold_left]. unfold run in IH. rewrite IH.
  symmetry. apply (handle_turn e He s).
Qed.

Lemma run_playback (events : list Event) :
  Forall (fun e => isMessage e = false /\ isSourceEnded e = false) events ->
  forall s : State, playback (run events s) = playback s.
Proof.
  induction 1 as [|e events [He He'] _ IH]; intros s; [reflexivity|].
  cbn [run fold_left]. unfold run in IH. rewrite IH.
  symmetry. apply (handle_playback e He He' s).
Qed.

(** X15.  Only an inbound message touches the partial texts, and only a
    message or the ended listener of a source touches the cursor and the
    set of active sources: clicks on start and end, the microphone's answer,
    the open, error and close callbacks, capture buffers and the settling of
    the session promise reset none of them.  So the text left in the
    accumulators when a call stops is flushed, trimmed, at the first
    turn-complete signal that follows, in the next call if there is one, and
    the next call starts with the cursor the last one left. *)
Theorem leftovers_survive (events : list Event) (now : Q) (ps : list Partial)
    (s : State) :
  Forall (fun e => isMessage e = false) events ->
  let s' := run events s in
  turn s' = turn s
  /\ (Forall (fun e => isMessage e = false /\ isSourceEnded e = false) events ->
      playback s' = playback s)
  /\ transcript (ui (run (turnEvents now ps) s'))
     = transcript (ui s')
       ++ entry user (trim (inputTranscriptionRef (turn s) ++ userTexts ps))
       ++ entry ai (trim (outputTranscriptionRef (turn s) ++ aiTexts ps)).
Proof.
  intros Hevents. cbn zeta.
  pose proof (run_turn events Hevents s) as Hturn.
  split; [exact Hturn|]. split; [intros H; apply run_playback; exact H|].
  destruct (turn_flushes_trimmed now ps (run events s)) as [Hflush _].
  rewrite Hturn in Hflush. exact Hflush.
Qed.

End Leftovers.

Lemma leftovers_survive_witness :
  let restart := [EndCallClicked; SessionClosed; StartCallClicked;
                  UserMediaSettled Granted true; SessionOpened 5] in
  let talking := @step fixedUtils activeCall
                   (MessageReceived 0 (partialMessage (AiText (js "hi")))) in
  turn (@run fixedUtils restart talking) = turn talking.
Proof.
  cbn zeta.
  apply (@leftovers_survive fixedUtils
           [EndCallClicked; SessionClosed; StartCallClicked;
            UserMediaSettled Granted true; SessionOpened 5] 0 []).
  repeat constructor.
Defined.

(** ** The subscription gate *)

Section GateProofs.
Import App.
Context {utils : AudioUtils}.

Lemma step_gate (st : AppState) (ev : AppEvent) :
  gateInvariant st ->
  gateInvariant (step st ev)
  /\ (isSubscribed (step st ev) = true
      <-> isSubscribed st = true
          \/ exists i, ev = ChoosePlan i /\ (i < length plans)%nat).
Proof.
  intros Hinv. unfold gateInvariant in *. destruct st as [sub page].
  cbn [isSubscribed callPage] in *.
  destruct ev as [i|e]; cbn [step isSubscribed callPage].
  - destruct sub; cbn [isSubscribed callPage].
    + split; [exact Hinv|]. split; [intros _; left; reflexivity | reflexivity].
    + destruct i as [|[|[|i]]]; cbn.
      1-3: split; [split; discriminate|]; split; [|reflexivity];
           intros _; right; eexists; split; [reflexivity | cbn; lia].
      split; [exact Hinv|]. split; [discriminate|].
      intros [H | (j & Hj & Hlt)]; [discriminate H|].
      injection Hj as <-. cbn in Hlt. lia.
  - destruct page as [page|]; cbn [isSubscribed callPage].
    + split.
      * split; [discriminate|]. intros H. apply Hinv in H. discriminate H.
      * split; [intros H; left; exact H|].
        intros [H | (j & Hj & _)]; [exact H | discriminate Hj].
    + split; [exact Hinv|].
      split; [intros H; left; exact H|].
      intros [H | (j & Hj & _)]; [exact H | discriminate Hj].
Qed.

Lemma run_gate (events : list AppEvent) :
  forall st : AppState,
    gateInvariant st ->
    gateInvariant (run events st)
    /\ (isSubscribed (run events st) = true
        <-> isSubscribed st = true
            \/ exists i, ChoosePlan i ∈ events /\ (i < length plans)%nat).
Proof.
  induction events as [|ev events IH]; intros st Hinv.
  - cbn. split; [exact Hinv|]. split; [tauto|].
    intros [H | (i & Hi & _)]; [exact H|]. inversion Hi.
  - cbn [run fold_left]. destruct (step_gate st ev Hinv) as [Hinv1 Hsub1].
    destruct (IH _ Hinv1) as [Hinv' Hsub']. unfold run in *.
    split; [exact Hinv'|]. rewrite Hsub', Hsub1. split.
    + intros [[H | (i & Heq & Hi)] | (i & Hin & Hi)].
      * left. exact H.
      * right. exists i. subst ev. split; [left | exact Hi].
      * right. exists i. split; [right; exact Hin | exact Hi].
    + intros [H | (i & Hin & Hi)]; [left; left; exact H|].
      apply elem_of_cons in Hin as [Heq | Hin].
      * left. right. exists i. split; [symmetry; exact Heq | exact Hi].
      * right. exists i. split; assumption.
Qed.

(** X16.  The gate opens one way only.  From the first render, after any
    events in any order: the user is subscribed exactly when one of the
    three plan buttons was clicked; the call page is mounted exactly when
    the user is subscribed; and any event that follows leaves a subscribed
    user subscribed. *)
Theorem gate_opens_once (events later : list AppEvent) :
  let st := run events App.initial in
  (isSubscribed st = true
   <-> exists i, ChoosePlan i ∈ events /\ (i < length plans)%nat)
  /\ (callPage st = None <-> isSubscribed st = false)
  /\ (isSubscribed st = true -> isSubscribed (run later st) = true).
Proof.
  cbn zeta.
  assert (Hinit : gateInvariant App.initial) by (split; reflexivity).
  destruct (run_gate events App.initial Hinit) as [Hinv Hsub].
  split; [|split; [exact Hinv|]].
  - rewrite Hsub. split; [|intros H; right; exact H].
    intros [H | H]; [discriminate H | exact H].
  - intros H. destruct (run_gate later _ Hinv) as [_ Hlater].
    apply Hlater. left. exact H.
Qed.

End GateProofs.

Lemma gate_opens_once_witness :
  App.isSubscribed
    (@App.run fixedUtils [App.PageEvent StartCallClicked]
       (@App.run fixedUtils [App.ChoosePlan 1] App.initial)) = true.
Proof.
  apply (proj2 (proj2 (@gate_opens_once fixedUtils [App.ChoosePlan 1]
                         [App.PageEvent StartCallClicked]))).
  vm_compute. reflexivity.
Defined.

Lemma sdk_failure_releases_witness :
  let connecting := exec startCall_begin initial in
  let s' := exec (startCall_resume Granted false) connecting in
  banner s' = Some microphoneError /\ refs s' = noRefs.
Proof.
  cbn zeta.
  destruct (sdk_failure_releases (exec startCall_begin initial))
    as (_ & _ & Hbanner & _ & _ & Hrefs).
  - vm_compute. reflexivity.
  - split; [exact Hbanner | exact Hrefs].
Defined.

Lemma stale_open_throws_witness :
  completes (onopen 0) refusedCall = false
  /\ callStatus (ui (exec (onopen 0) refusedCall)) = ACTIVE.
Proof.
  destruct (stale_open_throws 0 refusedCall) as (Hthrows & Hstatus & _).
  - vm_compute. reflexivity.
  - split; [exact Hthrows | exact Hstatus].
Defined.
